(** * resource_pool.h: a shallow embedding of [resource_pool<T>]

    The pool keeps a vector of [std::shared_ptr<resource>]; a handle given to
    a caller aliases the object the pool's own vector entry points to, and
    [release] reads and writes the [inUse] flag through the handle.  The
    model therefore has one shared store of [resource] objects ([heap]) and
    represents every [shared_ptr] by an optional location in it.

    The mutex makes every guarded block atomic.  The sequential functions
    below are those blocks; the last part of the file puts them under a
    thread-level step function with the wait set of the condition variable. *)

From Stdlib Require Import ZArith Lia.
From stdpp Require Import base list numbers.

Local Open Scope Z_scope.

Module ResourcePool.

(** ** Machine integers *)

(** [haveResources] is an [int]; [size] is a [size_t]. *)
Definition INT_MAX : Z := 2 ^ 31 - 1.

(** Conversion to [int] (two's complement, 32 bits). *)
Definition to_int (z : Z) : Z := (z + 2 ^ 31) mod 2 ^ 32 - 2 ^ 31.

Arguments to_int : simpl never.

Section Model.

Context {T : Type}.

(** ** Data *)

(** Locations of the store and identities of pool objects. *)
Abbreviation loc := nat (only parsing).
Abbreviation pool_id := nat (only parsing).

(** [struct resource]: the back reference to the owning pool, the payload and
    the flag. *)
Record resource := mk_resource {
  pool : pool_id;
  raw_resource : T;
  inUse : bool
}.

Abbreviation heap := (list resource) (only parsing).

(** [std::shared_ptr<resource>]; [None] is [nullptr]. *)
Abbreviation handle := (option nat) (only parsing).

(** The factory [std::function<T(void)>]: the outcome of its k-th invocation
    (counting from 0); [None] when that invocation throws. *)
Definition factory := nat -> option T.

(** The members of [resource_pool<T>].  [this] is the object's identity,
    [calls] a ghost counter of the invocations of [fn_new]. *)
Record resource_pool := mk_pool {
  this : pool_id;
  resources : list handle;
  size : Z;
  fn_new : factory;
  calls : nat;
  haveResources : Z;
  stop : bool
}.

Definition set_inUse (b : bool) (r : resource) : resource :=
  mk_resource (pool r) (raw_resource r) b.

Definition set_haveResources (n : Z) (p : resource_pool) : resource_pool :=
  mk_pool (this p) (resources p) (size p) (fn_new p) (calls p) n (stop p).

Definition set_stop (b : bool) (p : resource_pool) : resource_pool :=
  mk_pool (this p) (resources p) (size p) (fn_new p) (calls p)
          (haveResources p) b.

Definition set_slot (i : nat) (h : handle) (p : resource_pool) : resource_pool :=
  mk_pool (this p) (<[i:=h]> (resources p)) (size p) (fn_new p) (calls p)
          (haveResources p) (stop p).

Definition tick_calls (p : resource_pool) : resource_pool :=
  mk_pool (this p) (resources p) (size p) (fn_new p) (S (calls p))
          (haveResources p) (stop p).

(** ** Constructor (lines 54-60)

    Members are initialised in declaration order, so [size] is clamped first
    and [haveResources(size)] reads the clamped member, converted to [int].
    The loop pushes [size] null pointers. *)
Definition new_pool (self : pool_id) (size_ : Z) (new_fn : factory)
  : resource_pool :=
  let sz := Z.max size_ 1 in
  mk_pool self (replicate (Z.to_nat sz) None) sz new_fn 0%nat (to_int sz) false.

(** ** acquire (lines 67-101) *)

(** What a call of [acquire] does in a given state. *)
Inductive outcome :=
| Returned (h : handle)   (* the call returns [h]; [Returned None] is nullptr *)
| Blocked                 (* the wait predicate is false: the call is suspended *)
| Threw.                  (* [fn_new()] raised; the exception leaves [acquire] *)

(** [!res->inUse] for a non-null [res]. *)
Definition idle (hp : heap) (l : loc) : bool :=
  match hp !! l with
  | Some r => negb (inUse r)
  | None => false
  end.

(** The result of the loop of lines 86-97 before its body acts. *)
Inductive found :=
| FoundNull (i : nat)            (* [resources[i] == nullptr] *)
| FoundIdle (i : nat) (l : loc)  (* [!resources[i]->inUse] *)
| NotFound.                      (* the loop ran to the end *)

Fixpoint scan (hp : heap) (rs : list handle) (i : nat) : found :=
  match rs with
  | [] => NotFound
  | None :: _ => FoundNull i
  | Some l :: rs' => if idle hp l then FoundIdle i l else scan hp rs' (S i)
  end.

(** The predicate of [condition.wait] (line 78). *)
Definition wait_pred (p : resource_pool) : bool :=
  (0 <? haveResources p) || stop p.

(** Lines 85-100, run with the lock held once the wait is over and [stop] is
    false.  [std::make_shared] allocates a fresh object; its argument
    [fn_new()] is evaluated first, so an exception leaves before any write.
    When the loop finds nothing, [availableResource] is still null and the
    counter is decremented all the same.  [haveResources--] is written with
    the wrap-around of [int]. *)
Definition claim (hp : heap) (p : resource_pool)
  : outcome * heap * resource_pool :=
  match scan hp (resources p) 0 with
  | FoundNull i =>
      match fn_new p (calls p) with
      | None => (Threw, hp, tick_calls p)
      | Some v =>
          let l := length hp in
          (Returned (Some l),
           hp ++ [mk_resource (this p) v true],
           set_haveResources (to_int (haveResources p - 1))
             (set_slot i (Some l) (tick_calls p)))
      end
  | FoundIdle i l =>
      (Returned (Some l),
       alter (set_inUse true) l hp,
       set_haveResources (to_int (haveResources p - 1)) p)
  | NotFound =>
      (Returned None, hp, set_haveResources (to_int (haveResources p - 1)) p)
  end.

(** The second guarded block of [acquire] (lines 76-100), entered on the
    first evaluation of the wait predicate and again after every wake-up. *)
Definition acquire_locked (hp : heap) (p : resource_pool)
  : outcome * heap * resource_pool :=
  if negb (wait_pred p) then (Blocked, hp, p)
  else if stop p then (Returned None, hp, p)
  else claim hp p.

(** A whole call with no other thread in between. *)
Definition acquire (hp : heap) (p : resource_pool)
  : outcome * heap * resource_pool :=
  if stop p then (Returned None, hp, p)
  else acquire_locked hp p.

(** ** release (lines 106-115)

    The boolean tells whether [condition.notify_one()] is reached.  The test
    of line 109 reads the flag through the handle; the [pool] member of the
    object is not read.  A [shared_ptr] keeps its object alive, so the case
    of a location outside the store is there for totality only. *)
Definition release (hp : heap) (p : resource_pool) (h : handle)
  : bool * heap * resource_pool :=
  match h with
  | None => (false, hp, p)
  | Some l =>
      match hp !! l with
      | Some r =>
          if inUse r
          then (true, alter (set_inUse false) l hp,
                set_haveResources (to_int (haveResources p + 1)) p)
          else (false, hp, p)
      | None => (false, hp, p)
      end
  end.

(** ** resourcesAvailable (lines 120-123) and shutdown (lines 129-135) *)
Definition resourcesAvailable (p : resource_pool) : Z := haveResources p.

Definition shutdown (p : resource_pool) : resource_pool := set_stop true p.

(** ** Call sequences on one pool

    A sequence of calls made one after the other on one pool.  The
    configuration records the handles the pool has returned so far. *)
Inductive op :=
| OpAcquire
| OpRelease (h : handle)
| OpShutdown.

Record config := mk_config {
  c_heap : heap;
  c_pool : resource_pool;
  c_issued : list handle
}.

Definition do_op (o : op) (c : config) : config :=
  match o with
  | OpAcquire =>
      let '(r, hp, p) := acquire (c_heap c) (c_pool c) in
      mk_config hp p
        (match r with Returned h => h :: c_issued c | _ => c_issued c end)
  | OpRelease h =>
      let '(_, hp, p) := release (c_heap c) (c_pool c) h in
      mk_config hp p (c_issued c)
  | OpShutdown => mk_config (c_heap c) (shutdown (c_pool c)) (c_issued c)
  end.

Fixpoint run (os : list op) (c : config) : config :=
  match os with
  | [] => c
  | o :: os' => run os' (do_op o c)
  end.

(** The configurations a sequence passes through, the first one included. *)
Fixpoint visited (os : list op) (c : config) : list config :=
  match os with
  | [] => [c]
  | o :: os' => c :: visited os' (do_op o c)
  end.

(** Every released handle was returned earlier by [acquire] of this pool. *)
Fixpoint own_calls (os : list op) (c : config) : bool :=
  match os with
  | [] => true
  | o :: os' =>
      match o with
      | OpRelease h => bool_decide (h ∈ c_issued c)
      | _ => true
      end && own_calls os' (do_op o c)
  end.

(** A pool just constructed, in a store that may already hold the objects of
    other pools. *)
Definition fresh (hp : heap) (self : pool_id) (size_ : Z) (f : factory)
  : config :=
  mk_config hp (new_pool self size_ f) [].

(** ** What the claims count *)

(** A slot is free when it is empty or its object is not in use. *)
Definition slot_free (hp : heap) (s : handle) : bool :=
  match s with
  | None => true
  | Some l => idle hp l
  end.

Definition free_count (hp : heap) (rs : list handle) : Z :=
  Z.of_nat (length (filter (λ s, slot_free hp s = true) rs)).

(** Slot [i], holding [s], is the first free slot in index order. *)
Definition first_free (hp : heap) (rs : list handle) (i : nat) (s : handle)
  : Prop :=
  rs !! i = Some s ∧ slot_free hp s = true ∧
  ∀ j s', (j < i)%nat → rs !! j = Some s' → slot_free hp s' = false.

(** Invocations of the factory among the first [n] that returned a [T]. *)
Fixpoint constructed (f : factory) (n : nat) : nat :=
  match n with
  | O => O
  | S k => (match f k with Some _ => 1 | None => 0 end + constructed f k)%nat
  end.

(** ** Threads

    Each thread of the system makes one call of [acquire].  [Entry]: before
    the first guarded block (lines 68-74).  [Ready]: before the second one,
    either on arrival or after a wake-up, and contending for the lock.
    [Waiting]: suspended in [condition.wait], lock released. *)
Inductive tstate :=
| Entry
| Ready
| Waiting
| Finished (h : handle)
| Raised.

Record system := mk_system {
  s_heap : heap;
  s_pool : resource_pool;
  s_threads : list tstate
}.

Inductive action :=
| Call                             (* one more thread calls [acquire] *)
| Run (t : nat)                    (* thread [t] runs its next guarded block *)
| Spurious (t : nat)               (* [t] wakes up without a notification *)
| Release (h : handle) (w : nat)   (* [release(h)]; [notify_one] picks [w] *)
| ShutdownLock                     (* lines 130-133 *)
| ShutdownNotify.                  (* line 134 *)

Definition wake (st : tstate) : tstate :=
  match st with
  | Waiting => Ready
  | _ => st
  end.

Definition is_waiting (st : tstate) : bool :=
  match st with
  | Waiting => true
  | _ => false
  end.

(** [notify_one]: the waiter [w] if it is waiting, else the first waiter in
    thread order, if there is one. *)
Definition notify_one (w : nat) (ths : list tstate) : list tstate :=
  match ths !! w with
  | Some Waiting => <[w:=Ready]> ths
  | _ =>
      match list_find (λ st, is_waiting st = true) ths with
      | Some (t, _) => <[t:=Ready]> ths
      | None => ths
      end
  end.

Definition after_locked (r : outcome) : tstate :=
  match r with
  | Returned h => Finished h
  | Blocked => Waiting
  | Threw => Raised
  end.

Definition run_thread (t : nat) (s : system) : system :=
  match s_threads s !! t with
  | Some Entry =>
      mk_system (s_heap s) (s_pool s)
        (<[t:=if stop (s_pool s) then Finished None else Ready]> (s_threads s))
  | Some Ready =>
      let '(r, hp, p) := acquire_locked (s_heap s) (s_pool s) in
      mk_system hp p (<[t:=after_locked r]> (s_threads s))
  | _ => s
  end.

Definition act (a : action) (s : system) : system :=
  match a with
  | Call => mk_system (s_heap s) (s_pool s) (s_threads s ++ [Entry])
  | Run t => run_thread t s
  | Spurious t => mk_system (s_heap s) (s_pool s) (alter wake t (s_threads s))
  | Release h w =>
      let '(n, hp, p) := release (s_heap s) (s_pool s) h in
      mk_system hp p (if n then notify_one w (s_threads s) else s_threads s)
  | ShutdownLock => mk_system (s_heap s) (shutdown (s_pool s)) (s_threads s)
  | ShutdownNotify => mk_system (s_heap s) (s_pool s) (wake <$> s_threads s)
  end.

Fixpoint acts (l : list action) (s : system) : system :=
  match l with
  | [] => s
  | a :: l' => acts l' (act a s)
  end.

(** ** The pool invariant *)

(** No two slots share an object. *)
Definition slots_distinct (rs : list handle) : Prop :=
  ∀ i j l, rs !! i = Some (Some l) → rs !! j = Some (Some l) → i = j.

Record pool_inv (hp : heap) (p : resource_pool) : Prop := mk_pool_inv {
  inv_size : Z.of_nat (length (resources p)) = size p;
  inv_max : size p <= INT_MAX;
  inv_valid : ∀ i l, resources p !! i = Some (Some l) → (l < length hp)%nat;
  inv_distinct : slots_distinct (resources p);
  inv_count : haveResources p = free_count hp (resources p)
}.

(** Every non-null handle the pool has returned is the content of a slot. *)
Definition issued_ok (c : config) : Prop :=
  ∀ l, Some l ∈ c_issued c → ∃ i, resources (c_pool c) !! i = Some (Some l).

Definition config_inv (c : config) : Prop :=
  pool_inv (c_heap c) (c_pool c) ∧ issued_ok c.

Definition b2z (b : bool) : Z := if b then 1 else 0.

(** The release of [o] is the release of a handle the pool returned. *)
Definition own_call (o : op) (c : config) : Prop :=
  match o with
  | OpRelease h => h ∈ c_issued c
  | _ => True
  end.

(** [raw_resource && raw_resource->inUse] (the negation of line 109). *)
Definition in_use (hp : heap) (h : handle) : bool :=
  match h with
  | Some l =>
      match hp !! l with
      | Some r => inUse r
      | None => false
      end
  | None => false
  end.

(** Slots that hold an object. *)
Definition instances (rs : list handle) : nat :=
  length (filter is_Some rs).

(** What holds of a pool whatever handles are released on it: slots point
    into the store, and each object in a slot came from one invocation of
    the factory that returned. *)
Definition pool_wf (hp : heap) (p : resource_pool) : Prop :=
  (∀ i l, resources p !! i = Some (Some l) → (l < length hp)%nat) ∧
  constructed (fn_new p) (calls p) = instances (resources p).

(** A thread that can only leave [acquire] with the null handle: it waits,
    or it is about to take the lock again, or it has returned [nullptr]. *)
Definition on_way_out (st : tstate) : Prop :=
  st = Waiting ∨ st = Ready ∨ st = Finished None.

(** What a later state of a pool keeps of an earlier one: the factory, the
    number of slots, the object of every slot that has one, and the payload
    of every object. *)
Definition keeps (hp : heap) (p : resource_pool) (hp' : heap)
  (p' : resource_pool) : Prop :=
  fn_new p' = fn_new p ∧
  length (resources p') = length (resources p) ∧
  (∀ i l, resources p !! i = Some (Some l) → resources p' !! i = Some (Some l)) ∧
  (∀ l r, hp !! l = Some r →
          ∃ r', hp' !! l = Some r' ∧ raw_resource r' = raw_resource r).

(** Every object in a slot of the pool carries the pool as its owner. *)
Definition slots_owned (hp : heap) (p : resource_pool) : Prop :=
  ∀ i l, resources p !! i = Some (Some l) → pool <$> hp !! l = Some (this p).

(** Slots point into the store, their objects are owned by the pool, and
    every non-null handle returned so far is the content of a slot. *)
Definition handles_owned (c : config) : Prop :=
  (∀ i l, resources (c_pool c) !! i = Some (Some l) →
          (l < length (c_heap c))%nat) ∧
  slots_owned (c_heap c) (c_pool c) ∧
  issued_ok c.

(** [k] calls of [acquire] made one after the other by one thread, each in
    a thread of the model of its own, the first of them thread [n]: the call
    arrives, passes the first guarded block and runs the second. *)
Fixpoint calls_in_a_row (k n : nat) : list action :=
  match k with
  | O => []
  | S k' => Call :: Run n :: Run n :: calls_in_a_row k' (S n)
  end.

(** Every release in the list of actions is given the null handle or the
    content of a slot of the pool at that time. *)
Fixpoint slot_releases (l : list action) (s : system) : Prop :=
  match l with
  | [] => True
  | a :: l' =>
      match a with
      | Release (Some x) _ => ∃ i, resources (s_pool s) !! i = Some (Some x)
      | _ => True
      end ∧ slot_releases l' (act a s)
  end.

(** ** Arithmetic of [int] *)

Lemma to_int_id z : - 2 ^ 31 <= z <= INT_MAX → to_int z = z.
Proof.
  unfold to_int, INT_MAX. intros Hz.
  rewrite Z.mod_small; lia.
Qed.

Lemma to_int_range z : - 2 ^ 31 <= to_int z <= INT_MAX.
Proof.
  unfold to_int, INT_MAX.
  pose proof (Z.mod_pos_bound (z + 2 ^ 31) (2 ^ 32)). lia.
Qed.

(** ** The scan *)

Lemma first_free_unique hp rs i s j s' :
  first_free hp rs i s → first_free hp rs j s' → i = j ∧ s = s'.
Proof.
  intros (Hi & Fi & Li) (Hj & Fj & Lj).
  destruct (Nat.lt_trichotomy i j) as [Hlt | [-> | Hlt]].
  - specialize (Lj _ _ Hlt Hi). congruence.
  - split; congruence.
  - specialize (Li _ _ Hlt Hj). congruence.
Qed.

Lemma first_free_here hp s rs :
  slot_free hp s = true → first_free hp (s :: rs) 0 s.
Proof. intros Hs. repeat split; [done | lia]. Qed.

Lemma first_free_later hp s0 rs i s :
  slot_free hp s0 = false →
  first_free hp rs i s → first_free hp (s0 :: rs) (S i) s.
Proof.
  intros H0 (Hi & Fi & Li). repeat split; try done.
  intros [| j] s' Hj Hl; simpl in Hl.
  - congruence.
  - apply (Li j); [lia | done].
Qed.

(** What the loop finds, for a scan started at index [k]. *)
Lemma scan_spec hp rs k :
  match scan hp rs k with
  | FoundNull i => ∃ j, i = (k + j)%nat ∧ first_free hp rs j None
  | FoundIdle i l => ∃ j, i = (k + j)%nat ∧ first_free hp rs j (Some l)
  | NotFound => ∀ j s, rs !! j = Some s → slot_free hp s = false
  end.
Proof.
  revert k. induction rs as [| s rs IH]; intros k; simpl.
  - intros j s Hj. by rewrite lookup_nil in Hj.
  - destruct s as [l |].
    + destruct (idle hp l) eqn:Hl.
      * exists 0%nat. split; [lia |]. by apply first_free_here.
      * specialize (IH (S k)).
        destruct (scan hp rs (S k)) as [i | i l' |].
        -- destruct IH as (j & -> & Hj). exists (S j). split; [lia |].
           by apply first_free_later.
        -- destruct IH as (j & -> & Hj). exists (S j). split; [lia |].
           by apply first_free_later.
        -- intros [| j] s; simpl; [| by apply IH].
           intros [= <-]. done.
    + exists 0%nat. split; [lia |]. by apply first_free_here.
Qed.

Lemma scan_first_free hp rs i s :
  first_free hp rs i s →
  scan hp rs 0 = match s with None => FoundNull i | Some l => FoundIdle i l end.
Proof.
  intros Hf. pose proof (scan_spec hp rs 0) as Hs.
  destruct (scan hp rs 0) as [i' | i' l' |].
  - destruct Hs as (j & -> & Hj).
    destruct (first_free_unique _ _ _ _ _ _ Hf Hj) as [-> ->]. done.
  - destruct Hs as (j & -> & Hj).
    destruct (first_free_unique _ _ _ _ _ _ Hf Hj) as [-> ->]. done.
  - destruct Hf as (Hi & Fi & _). specialize (Hs _ _ Hi). congruence.
Qed.

(** ** Counting free slots *)

Lemma free_count_nil hp : free_count hp [] = 0.
Proof. reflexivity. Qed.

Lemma free_count_cons hp s rs :
  free_count hp (s :: rs) = b2z (slot_free hp s) + free_count hp rs.
Proof.
  unfold free_count. rewrite filter_cons.
  destruct (decide (slot_free hp s = true)) as [-> | Hn]; simpl.
  - lia.
  - destruct (slot_free hp s); [done | simpl; lia].
Qed.

Lemma free_count_bounds hp rs :
  0 <= free_count hp rs <= Z.of_nat (length rs).
Proof.
  induction rs as [| s rs IH]; [rewrite free_count_nil; simpl; lia |].
  rewrite free_count_cons. simpl length.
  destruct (slot_free hp s); simpl b2z; lia.
Qed.

Lemma free_count_zero hp rs :
  (∀ j s, rs !! j = Some s → slot_free hp s = false) → free_count hp rs = 0.
Proof.
  induction rs as [| s rs IH]; intros H; [done |].
  rewrite free_count_cons, IH.
  - by rewrite (H 0%nat s).
  - intros j s' Hj. by apply (H (S j)).
Qed.

Lemma free_count_ext hp hp' rs :
  (∀ j s, rs !! j = Some s → slot_free hp' s = slot_free hp s) →
  free_count hp' rs = free_count hp rs.
Proof.
  induction rs as [| s rs IH]; intros H; [done |].
  rewrite !free_count_cons, IH.
  - by rewrite (H 0%nat s).
  - intros j s' Hj. by apply (H (S j)).
Qed.

(** One slot changes its status, the others keep theirs. *)
Lemma free_count_change hp hp' rs i s :
  rs !! i = Some s →
  (∀ j s', j ≠ i → rs !! j = Some s' → slot_free hp' s' = slot_free hp s') →
  free_count hp' rs
  = free_count hp rs - b2z (slot_free hp s) + b2z (slot_free hp' s).
Proof.
  revert i. induction rs as [| s0 rs IH]; intros i Hi H; [done |].
  rewrite !free_count_cons. destruct i as [| i]; simpl in Hi.
  - injection Hi as ->.
    rewrite (free_count_ext hp hp' rs); [lia |].
    intros j s' Hj. by apply (H (S j)).
  - rewrite (IH i Hi).
    + rewrite (H 0%nat s0); [lia | lia | done].
    + intros j s' Hne Hj. apply (H (S j)); [lia | done].
Qed.

Lemma free_count_insert hp rs i s s' :
  rs !! i = Some s →
  free_count hp (<[i:=s']> rs)
  = free_count hp rs - b2z (slot_free hp s) + b2z (slot_free hp s').
Proof.
  revert i. induction rs as [| s0 rs IH]; intros i Hi; [done |].
  destruct i as [| i]; simpl in *.
  - injection Hi as ->. rewrite !free_count_cons. lia.
  - rewrite !free_count_cons, (IH i Hi). lia.
Qed.

Lemma free_count_replicate hp n :
  free_count hp (replicate n None) = Z.of_nat n.
Proof.
  induction n as [| n IH]; [done |].
  simpl replicate. rewrite free_count_cons, IH. simpl b2z. lia.
Qed.

(** ** The store under the pool's writes *)

Lemma idle_alter_ne hp f l l' : l ≠ l' → idle (alter f l hp) l' = idle hp l'.
Proof. intros Hne. unfold idle. by rewrite list_lookup_alter_ne. Qed.

Lemma idle_alter_eq hp b l r :
  hp !! l = Some r → idle (alter (set_inUse b) l hp) l = negb b.
Proof. intros Hl. unfold idle. by rewrite list_lookup_alter_eq, Hl. Qed.

Lemma idle_app hp hp2 l : (l < length hp)%nat → idle (hp ++ hp2) l = idle hp l.
Proof. intros Hl. unfold idle. by rewrite lookup_app_l. Qed.

Lemma idle_fresh hp r : inUse r = true → idle (hp ++ [r]) (length hp) = false.
Proof.
  intros Hr. unfold idle.
  rewrite lookup_app_r, Nat.sub_diag by lia. simpl. by rewrite Hr.
Qed.

Lemma idle_Some hp l :
  idle hp l = true → ∃ r, hp !! l = Some r ∧ inUse r = false.
Proof.
  unfold idle. destruct (hp !! l) as [r |]; [| done].
  destruct (inUse r) eqn:Hr; [done |]. eauto.
Qed.

(** ** The guarded blocks case by case *)

Lemma acquire_stopped hp p :
  stop p = true → acquire hp p = (Returned None, hp, p).
Proof. intros H. unfold acquire. by rewrite H. Qed.

Lemma acquire_locked_stopped hp p :
  stop p = true → acquire_locked hp p = (Returned None, hp, p).
Proof.
  intros H. unfold acquire_locked, wait_pred. rewrite H.
  by rewrite orb_true_r.
Qed.

Lemma acquire_exhausted hp p :
  stop p = false → haveResources p <= 0 → acquire hp p = (Blocked, hp, p).
Proof.
  intros Hs Hn. unfold acquire, acquire_locked, wait_pred. rewrite Hs.
  destruct (0 <? haveResources p) eqn:Hlt; [| done].
  apply Z.ltb_lt in Hlt. lia.
Qed.

Lemma acquire_locked_running hp p :
  stop p = false → 0 < haveResources p → acquire_locked hp p = claim hp p.
Proof.
  intros Hs Hn. unfold acquire_locked, wait_pred. rewrite Hs.
  apply Z.ltb_lt in Hn. by rewrite Hn.
Qed.

Lemma acquire_running hp p :
  stop p = false → 0 < haveResources p → acquire hp p = claim hp p.
Proof.
  intros Hs Hn. unfold acquire. rewrite Hs.
  by apply acquire_locked_running.
Qed.

Lemma claim_null hp p i v :
  first_free hp (resources p) i None →
  fn_new p (calls p) = Some v →
  claim hp p
  = (Returned (Some (length hp)),
     hp ++ [mk_resource (this p) v true],
     set_haveResources (to_int (haveResources p - 1))
       (set_slot i (Some (length hp)) (tick_calls p))).
Proof.
  intros Hf Hv. unfold claim. by rewrite (scan_first_free _ _ _ _ Hf), Hv.
Qed.

Lemma claim_null_throws hp p i :
  first_free hp (resources p) i None →
  fn_new p (calls p) = None →
  claim hp p = (Threw, hp, tick_calls p).
Proof.
  intros Hf Hv. unfold claim. by rewrite (scan_first_free _ _ _ _ Hf), Hv.
Qed.

Lemma claim_idle hp p i l :
  first_free hp (resources p) i (Some l) →
  claim hp p
  = (Returned (Some l), alter (set_inUse true) l hp,
     set_haveResources (to_int (haveResources p - 1)) p).
Proof.
  intros Hf. unfold claim. by rewrite (scan_first_free _ _ _ _ Hf).
Qed.

Lemma release_null hp p : release hp p None = (false, hp, p).
Proof. reflexivity. Qed.

Lemma release_not_in_use hp p l r :
  hp !! l = Some r → inUse r = false → release hp p (Some l) = (false, hp, p).
Proof. intros Hl Hr. unfold release. by rewrite Hl, Hr. Qed.

Lemma release_in_use hp p l r :
  hp !! l = Some r → inUse r = true →
  release hp p (Some l)
  = (true, alter (set_inUse false) l hp,
     set_haveResources (to_int (haveResources p + 1)) p).
Proof. intros Hl Hr. unfold release. by rewrite Hl, Hr. Qed.

(** ** The invariant is established and kept *)

Lemma new_pool_length self size_ f :
  Z.of_nat (length (resources (new_pool self size_ f))) = Z.max size_ 1.
Proof. simpl. rewrite length_replicate. lia. Qed.

Lemma pool_inv_new hp self size_ f :
  size_ <= INT_MAX → pool_inv hp (new_pool self size_ f).
Proof.
  intros Hs. unfold INT_MAX in Hs. split.
  - apply new_pool_length.
  - simpl. unfold INT_MAX. lia.
  - simpl. intros i l Hi. apply lookup_replicate in Hi as [? _]. done.
  - simpl. intros i j l Hi. apply lookup_replicate in Hi as [? _]. done.
  - simpl. rewrite free_count_replicate, to_int_id; unfold INT_MAX; lia.
Qed.

Lemma free_count_store_grows hp hp2 rs :
  (∀ i l, rs !! i = Some (Some l) → (l < length hp)%nat) →
  free_count (hp ++ hp2) rs = free_count hp rs.
Proof.
  intros Hv. apply free_count_ext. intros j [l |] Hj; [| done].
  simpl. apply idle_app. by apply (Hv j).
Qed.

(** [claim] on a pool that satisfies the invariant and has [haveResources > 0]:
    the invariant is kept, no slot loses its object, a returned handle is
    never null and is the content of a slot. *)
Lemma pool_inv_claim hp p r hp' p' :
  pool_inv hp p → 0 < haveResources p →
  claim hp p = (r, hp', p') →
  pool_inv hp' p' ∧
  (∀ i l, resources p !! i = Some (Some l) → resources p' !! i = Some (Some l)) ∧
  r ≠ Returned None ∧ r ≠ Blocked ∧
  (∀ l, r = Returned (Some l) → ∃ i, resources p' !! i = Some (Some l)).
Proof.
  intros [Hsz Hmax Hval Hdis Hcnt] Hpos. unfold claim.
  pose proof (scan_spec hp (resources p) 0) as Hscan.
  pose proof (free_count_bounds hp (resources p)) as Hb.
  destruct (scan hp (resources p) 0) as [i | i l |].
  - destruct Hscan as (j & -> & Hi & _ & _). simpl.
    pose proof (lookup_lt_Some _ _ _ Hi) as Hlt.
    destruct (fn_new p (calls p)) as [v |]; intros [= <- <- <-].
    + split; [split; simpl | repeat split; try done].
      * by rewrite length_insert.
      * done.
      * intros k l Hk. rewrite length_app. simpl.
        apply list_lookup_insert_Some in Hk as [(-> & [= <-] & _) | [_ Hk]].
        -- lia.
        -- specialize (Hval _ _ Hk). lia.
      * intros k1 k2 l H1 H2.
        apply list_lookup_insert_Some in H1 as [(-> & [= <-] & _) | [Hn1 H1]];
        apply list_lookup_insert_Some in H2 as [(-> & ? & _) | [Hn2 H2]].
        -- done.
        -- specialize (Hval _ _ H2). lia.
        -- simplify_eq. specialize (Hval _ _ H1). lia.
        -- by apply (Hdis k1 k2 l).
      * rewrite to_int_id by (unfold INT_MAX in *; lia).
        rewrite (free_count_insert _ _ _ None) by done.
        rewrite free_count_store_grows by done.
        simpl slot_free. rewrite idle_fresh by done. simpl. lia.
      * simpl. intros k l Hk. rewrite list_lookup_insert_ne; [done |].
        intros ->. congruence.
      * simpl. intros l [= <-]. exists j. by apply list_lookup_insert_eq.
    + repeat split; done.
  - destruct Hscan as (j & -> & Hi & Hfree & _). simpl. intros [= <- <- <-].
    simpl in Hfree. destruct (idle_Some _ _ Hfree) as (r0 & Hr0 & Hu).
    split; [split; simpl | repeat split; try done].
    + done.
    + done.
    + intros k l' Hk. rewrite length_alter. by apply (Hval k).
    + done.
    + rewrite to_int_id by (unfold INT_MAX in *; lia).
      rewrite (free_count_change hp _ _ j (Some l)); [| done |].
      * simpl slot_free. rewrite Hfree, (idle_alter_eq _ _ _ r0) by done.
        simpl. lia.
      * intros k [l' |] Hne Hk; [| done]. simpl. apply idle_alter_ne.
        intros ->. apply Hne. by apply (Hdis k j l').
    + intros l' [= <-]. by exists j.
  - rewrite (free_count_zero _ _ Hscan) in Hcnt. lia.
Qed.

(** [release] of a null handle or of the content of a slot. *)
Lemma pool_inv_release hp p h n hp' p' :
  pool_inv hp p →
  (∀ l, h = Some l → ∃ i, resources p !! i = Some (Some l)) →
  release hp p h = (n, hp', p') →
  pool_inv hp' p' ∧ resources p' = resources p.
Proof.
  intros [Hsz Hmax Hval Hdis Hcnt] Hown. unfold release.
  destruct h as [l |]; [| by intros [= <- <- <-]].
  destruct (Hown l eq_refl) as [i Hi].
  destruct (hp !! l) as [r |] eqn:Hl; [| by intros [= <- <- <-]].
  destruct (inUse r) eqn:Hr; intros [= <- <- <-]; [| done].
  assert (free_count (alter (set_inUse false) l hp) (resources p)
          = free_count hp (resources p) + 1) as Hfc.
  { rewrite (free_count_change hp _ _ i (Some l)); [| done |].
    - simpl slot_free. rewrite (idle_alter_eq _ _ _ r) by done.
      unfold idle. rewrite Hl, Hr. simpl. lia.
    - intros k [l' |] Hne Hk; [| done]. simpl. apply idle_alter_ne.
      intros ->. apply Hne. by apply (Hdis k i l'). }
  pose proof (free_count_bounds (alter (set_inUse false) l hp) (resources p)).
  pose proof (free_count_bounds hp (resources p)).
  split; [split; simpl | done]; try done.
  - intros k l' Hk. rewrite length_alter. by apply (Hval k).
  - rewrite to_int_id by (unfold INT_MAX in *; lia). lia.
Qed.

(** A whole [acquire] under the invariant. *)
Lemma pool_inv_acquire hp p r hp' p' :
  pool_inv hp p →
  acquire hp p = (r, hp', p') →
  pool_inv hp' p' ∧
  (∀ i l, resources p !! i = Some (Some l) → resources p' !! i = Some (Some l)) ∧
  (∀ l, r = Returned (Some l) → ∃ i, resources p' !! i = Some (Some l)).
Proof.
  intros Hinv. destruct (stop p) eqn:Hs.
  - rewrite acquire_stopped by done. by intros [= <- <- <-].
  - destruct (Z_lt_le_dec 0 (haveResources p)) as [Hpos | Hle].
    + rewrite acquire_running by done. intros Hc.
      destruct (pool_inv_claim _ _ _ _ _ Hinv Hpos Hc) as (? & ? & _ & _ & ?).
      done.
    + rewrite acquire_exhausted by done. by intros [= <- <- <-].
Qed.

(** ** Members no call changes *)

Lemma claim_size hp p : size (claim hp p).2 = size p.
Proof.
  unfold claim. destruct (scan hp (resources p) 0); [| done | done].
  by destruct (fn_new p (calls p)).
Qed.

Lemma acquire_size hp p : size (acquire hp p).2 = size p.
Proof.
  unfold acquire, acquire_locked.
  destruct (stop p); [done |]. destruct (negb (wait_pred p)); [done |].
  apply claim_size.
Qed.

Lemma release_size hp p h : size (release hp p h).2 = size p.
Proof.
  unfold release. destruct h as [l |]; [| done].
  destruct (hp !! l) as [r |]; [| done]. by destruct (inUse r).
Qed.

Lemma do_op_size o c : size (c_pool (do_op o c)) = size (c_pool c).
Proof.
  destruct o as [| h |]; simpl.
  - pose proof (acquire_size (c_heap c) (c_pool c)) as H.
    by destruct (acquire (c_heap c) (c_pool c)) as [[r hp] p].
  - pose proof (release_size (c_heap c) (c_pool c) h) as H.
    by destruct (release (c_heap c) (c_pool c) h) as [[n hp] p].
  - done.
Qed.

(** ** The invariant along a sequence of calls *)

Lemma config_inv_do_op o c :
  config_inv c → own_call o c → config_inv (do_op o c).
Proof.
  intros [Hinv Hiss] Hown. destruct o as [| h |]; simpl.
  - destruct (acquire (c_heap c) (c_pool c)) as [[r hp] p] eqn:Ha.
    destruct (pool_inv_acquire _ _ _ _ _ Hinv Ha) as (Hinv' & Hmono & Hret).
    split; [done |]. intros l Hl. simpl in *.
    assert (Some l ∈ c_issued c → ∃ i, resources p !! i = Some (Some l)) as Hold.
    { intros Hin. destruct (Hiss l Hin) as [i Hi]. exists i. by apply Hmono. }
    destruct r as [h | |]; [| by apply Hold | by apply Hold].
    apply elem_of_cons in Hl as [<- | Hl]; [by apply Hret | by apply Hold].
  - destruct (release (c_heap c) (c_pool c) h) as [[n hp] p] eqn:Hr.
    simpl in Hown.
    assert (∀ l, h = Some l → ∃ i, resources (c_pool c) !! i = Some (Some l))
      as Hslot by (intros l ->; by apply Hiss).
    destruct (pool_inv_release _ _ _ _ _ _ Hinv Hslot Hr) as [Hinv' Hrs].
    split; [done |]. intros l Hl. simpl in *. rewrite Hrs. by apply Hiss.
  - split.
    + destruct Hinv. by split.
    + done.
Qed.

Lemma config_inv_fresh hp self size_ f :
  size_ <= INT_MAX → config_inv (fresh hp self size_ f).
Proof.
  intros Hs. split; [by apply pool_inv_new |].
  intros l Hl. simpl in Hl. by apply elem_of_nil in Hl.
Qed.

Lemma own_calls_cons o os c :
  own_calls (o :: os) c = true ↔ own_call o c ∧ own_calls os (do_op o c) = true.
Proof.
  simpl. rewrite andb_true_iff.
  destruct o as [| h |]; simpl; [tauto | | tauto].
  by rewrite bool_decide_eq_true.
Qed.

Lemma config_inv_visited os c :
  config_inv c → own_calls os c = true →
  Forall (λ c', config_inv c' ∧ size (c_pool c') = size (c_pool c))
         (visited os c).
Proof.
  revert c. induction os as [| o os IH]; intros c Hinv Hown; simpl visited.
  - apply Forall_cons_2; [done | apply Forall_nil_2].
  - apply own_calls_cons in Hown as [Ho Hos].
    apply Forall_cons_2; [done |].
    pose proof (IH (do_op o c) (config_inv_do_op o c Hinv Ho) Hos) as HF.
    revert HF. apply List.Forall_impl.
    intros c' [? Hsz]. split; [done |]. by rewrite Hsz, do_op_size.
Qed.

Lemma visited_last os c : run os c ∈ visited os c.
Proof.
  revert c. induction os as [| o os IH]; intros c; simpl.
  - apply list_elem_of_here.
  - apply list_elem_of_further, IH.
Qed.

Lemma config_inv_run os c :
  config_inv c → own_calls os c = true → config_inv (run os c).
Proof.
  intros Hinv Hown.
  pose proof (config_inv_visited os c Hinv Hown) as HF.
  rewrite List.Forall_forall in HF.
  apply (HF (run os c)), list_elem_of_In, visited_last.
Qed.

(** ** Construction *)

(** C6. Construction clamps the requested capacity to at least 1 (a request
    of 0 gives capacity 1), creates exactly that many slots, all of them
    empty, sets the counter of available resources to the clamped capacity
    and the stop flag to false, and does not invoke the factory: no
    invocation is counted and the store of objects is left as it was.  The
    requested capacity is a [size_t] that fits the [int] counter. *)
Theorem new_pool_clamped_and_lazy (hp : heap) self size_ f :
  0 <= size_ <= INT_MAX →
  size (new_pool self size_ f) = Z.max size_ 1 ∧
  1 <= size (new_pool self size_ f) ∧
  (size_ = 0 → size (new_pool self size_ f) = 1) ∧
  Z.of_nat (length (resources (new_pool self size_ f))) = Z.max size_ 1 ∧
  (∀ i s, resources (new_pool self size_ f) !! i = Some s → s = None) ∧
  resourcesAvailable (new_pool self size_ f) = Z.max size_ 1 ∧
  stop (new_pool self size_ f) = false ∧
  calls (new_pool self size_ f) = 0%nat ∧
  c_heap (fresh hp self size_ f) = hp.
Proof.
  intros Hs. unfold INT_MAX in Hs. repeat split.
  - simpl. lia.
  - intros ->. done.
  - apply new_pool_length.
  - simpl. intros i s Hi. by apply lookup_replicate in Hi as [-> _].
  - unfold resourcesAvailable. simpl.
    apply to_int_id. unfold INT_MAX. lia.
Qed.

(** ** The counter *)

(** C1. In every configuration a pool passes through, from its construction
    on, under any finite sequence of calls in which every released handle
    was returned earlier by [acquire] of this pool, the counter of available
    resources lies between 0 and the pool's capacity (the clamped size). *)
Theorem available_within_capacity (hp : heap) self size_ f os :
  0 <= size_ <= INT_MAX →
  own_calls os (fresh hp self size_ f) = true →
  Forall (λ c, size (c_pool c) = Z.max size_ 1 ∧
               0 <= resourcesAvailable (c_pool c) <= size (c_pool c))
         (visited os (fresh hp self size_ f)).
Proof.
  intros Hs Hown.
  assert (config_inv (fresh hp self size_ f)) as Hinv
    by (apply config_inv_fresh; lia).
  pose proof (config_inv_visited os _ Hinv Hown) as HF.
  revert HF. apply List.Forall_impl.
  intros c [[[Hsz _ _ _ Hcnt] _] Heq]. split; [done |].
  unfold resourcesAvailable. rewrite Hcnt, <- Hsz.
  apply free_count_bounds.
Qed.

(** C10. In every configuration reached from construction by calls of
    [acquire], [release] of handles this pool returned, and [shutdown], the
    counter equals the number of free slots (empty, or holding an object
    that is not in use).  So when the pool is not stopped and the counter is
    positive, the guarded block of [acquire] runs the scan, the scan finds
    the first free slot, and the call returns a non-null handle, unless the
    slot was empty and the factory invocation for it raised. *)
Theorem available_counts_free_slots (hp : heap) self size_ f os c :
  0 <= size_ <= INT_MAX →
  own_calls os (fresh hp self size_ f) = true →
  c = run os (fresh hp self size_ f) →
  haveResources (c_pool c) = free_count (c_heap c) (resources (c_pool c)) ∧
  (stop (c_pool c) = false → 0 < haveResources (c_pool c) →
   ∃ i s,
     first_free (c_heap c) (resources (c_pool c)) i s ∧
     scan (c_heap c) (resources (c_pool c)) 0
     = match s with None => FoundNull i | Some l => FoundIdle i l end ∧
     acquire_locked (c_heap c) (c_pool c) = acquire (c_heap c) (c_pool c) ∧
     ((∃ l, (acquire (c_heap c) (c_pool c)).1.1 = Returned (Some l)) ∨
      (s = None ∧ fn_new (c_pool c) (calls (c_pool c)) = None ∧
       (acquire (c_heap c) (c_pool c)).1.1 = Threw))).
Proof.
  intros Hs Hown ->.
  assert (config_inv (fresh hp self size_ f)) as Hinv
    by (apply config_inv_fresh; lia).
  destruct (config_inv_run os _ Hinv Hown) as [[Hsz Hmax Hval Hdis Hcnt] _].
  set (c := run os (fresh hp self size_ f)) in *.
  split; [done |]. intros Hstop Hpos.
  rewrite acquire_running, acquire_locked_running by done.
  pose proof (scan_spec (c_heap c) (resources (c_pool c)) 0) as Hscan.
  unfold claim.
  destruct (scan (c_heap c) (resources (c_pool c)) 0) as [i | i l |].
  - destruct Hscan as (j & -> & Hj). exists j, None.
    split; [done |]. split; [done |]. split; [done |].
    destruct (fn_new (c_pool c) (calls (c_pool c))); [left | right]; eauto.
  - destruct Hscan as (j & -> & Hj). exists j, (Some l).
    split; [done |]. split; [done |]. split; [done |]. left. eauto.
  - rewrite (free_count_zero _ _ Hscan) in Hcnt. lia.
Qed.

(** ** acquire *)

(** C2. In a pool that is not stopped and whose counter is positive,
    [acquire] claims the first free slot in index order.  An empty slot gets
    a new object made from the one value the factory is invoked for (one
    more invocation is counted), an idle object is reused without invoking
    the factory; the object is marked in use, the counter goes down by
    exactly 1, and the handle returned is non-null and is the content of
    that slot.  No other slot and no other object changes.  The counter is
    an [int]; for an empty slot the factory invocation is taken to return. *)
Theorem acquire_claims_first_free (hp : heap) p i s :
  stop p = false →
  0 < haveResources p <= INT_MAX →
  first_free hp (resources p) i s →
  (s = None → is_Some (fn_new p (calls p))) →
  ∃ l hp' p',
    acquire hp p = (Returned (Some l), hp', p') ∧
    resources p' !! i = Some (Some l) ∧
    (∀ j, j ≠ i → resources p' !! j = resources p !! j) ∧
    inUse <$> hp' !! l = Some true ∧
    (∀ l', l' ≠ l → hp' !! l' = hp !! l') ∧
    haveResources p' = haveResources p - 1 ∧
    stop p' = false ∧ size p' = size p ∧
    match s with
    | None =>
        l = length hp ∧ calls p' = S (calls p) ∧
        raw_resource <$> hp' !! l = fn_new p (calls p) ∧
        pool <$> hp' !! l = Some (this p)
    | Some l0 =>
        l = l0 ∧ calls p' = calls p ∧
        raw_resource <$> hp' !! l = raw_resource <$> hp !! l
    end.
Proof.
  intros Hstop [Hpos Hmax] Hf Hfac.
  assert (to_int (haveResources p - 1) = haveResources p - 1) as Hdec
    by (apply to_int_id; unfold INT_MAX in *; lia).
  rewrite acquire_running by done.
  pose proof Hf as (Hi & Hfree & _).
  pose proof (lookup_lt_Some _ _ _ Hi) as Hlt.
  destruct s as [l |].
  - rewrite (claim_idle _ _ _ _ Hf). simpl in Hfree.
    destruct (idle_Some _ _ Hfree) as (r & Hr & Hu).
    eexists _, _, _. split; [done |]. simpl. repeat split; try done.
    + by rewrite list_lookup_alter_eq, Hr.
    + intros l' Hne. by rewrite list_lookup_alter_ne.
    + by rewrite list_lookup_alter_eq, Hr.
  - destruct (Hfac eq_refl) as [v Hv].
    rewrite (claim_null _ _ _ _ Hf Hv).
    eexists _, _, _. split; [done |]. simpl. repeat split; try done.
    + by apply list_lookup_insert_eq.
    + intros j Hne. by rewrite list_lookup_insert_ne.
    + by rewrite lookup_app_r, Nat.sub_diag.
    + intros l' Hne.
      destruct (decide (l' < length hp)%nat) as [Hl | Hl].
      * by rewrite lookup_app_l.
      * rewrite (lookup_ge_None_2 hp) by lia.
        apply lookup_ge_None_2. rewrite length_app. simpl. lia.
    + by rewrite lookup_app_r, Nat.sub_diag, Hv.
    + by rewrite lookup_app_r, Nat.sub_diag.
Qed.

(** C8. When the factory invocation made inside [acquire] raises, the
    exception leaves [acquire] and the pool is as before: the store of
    objects and every slot are unchanged, the slot being claimed is still
    empty, the counter is not decremented, and the invariant still holds.
    Only the count of factory invocations has moved. *)
Theorem factory_failure_keeps_state (hp : heap) p i :
  stop p = false →
  0 < haveResources p →
  first_free hp (resources p) i None →
  fn_new p (calls p) = None →
  ∃ p',
    acquire hp p = (Threw, hp, p') ∧
    resources p' = resources p ∧
    resources p' !! i = Some None ∧
    haveResources p' = haveResources p ∧
    stop p' = stop p ∧ size p' = size p ∧
    calls p' = S (calls p) ∧
    (pool_inv hp p → pool_inv hp p').
Proof.
  intros Hstop Hpos Hf Hv.
  rewrite acquire_running by done.
  rewrite (claim_null_throws _ _ _ Hf Hv).
  exists (tick_calls p). destruct Hf as (Hi & _).
  split_and!; try done. by intros [].
Qed.

(** ** release *)

Lemma release_not_releasable (hp : heap) p h :
  in_use hp h = false → release hp p h = (false, hp, p).
Proof.
  unfold in_use, release. destruct h as [l |]; [| done].
  destruct (hp !! l) as [r |]; [| done]. by intros ->.
Qed.

Lemma in_use_after_release (hp : heap) p h :
  in_use (release hp p h).1.2 h = false.
Proof.
  destruct (in_use hp h) eqn:Hu.
  - unfold in_use in Hu. destruct h as [l |]; [| done].
    destruct (hp !! l) as [r |] eqn:Hl; [| done].
    rewrite (release_in_use _ _ _ _ Hl Hu). simpl.
    by rewrite list_lookup_alter_eq, Hl.
  - by rewrite release_not_releasable.
Qed.

Lemma to_int_small : to_int 2 = 2 ∧ to_int 3 = 3.
Proof. by vm_compute. Qed.

(** C3. Releasing a null handle, or a handle whose object is not in use (it
    was released already), reaches neither the counter nor the store nor the
    notification: the state is the same afterwards.  Hence releasing any
    handle a second time changes nothing.  With capacity 3 and a factory
    whose first invocation returns: [acquire] gives handle A and 2 resources
    are available; [release(A)] makes it 3; a second [release(A)] leaves the
    whole state as it is, with 3 available. *)
Theorem release_twice_is_release_once (hp : heap) p h :
  (in_use hp h = false → release hp p h = (false, hp, p)) ∧
  release (release hp p h).1.2 (release hp p h).2 h
  = (false, (release hp p h).1.2, (release hp p h).2) ∧
  (∀ (hp0 : heap) self f v,
     f 0%nat = Some v →
     c_issued (do_op OpAcquire (fresh hp0 self 3 f)) = [Some (length hp0)] ∧
     resourcesAvailable (c_pool (do_op OpAcquire (fresh hp0 self 3 f))) = 2 ∧
     resourcesAvailable
       (c_pool (run [OpAcquire; OpRelease (Some (length hp0))]
                    (fresh hp0 self 3 f))) = 3 ∧
     run [OpAcquire; OpRelease (Some (length hp0));
          OpRelease (Some (length hp0))] (fresh hp0 self 3 f)
     = run [OpAcquire; OpRelease (Some (length hp0))] (fresh hp0 self 3 f) ∧
     resourcesAvailable
       (c_pool (run [OpAcquire; OpRelease (Some (length hp0));
                     OpRelease (Some (length hp0))] (fresh hp0 self 3 f))) = 3).
Proof.
  split; [apply release_not_releasable |].
  split; [apply release_not_releasable, in_use_after_release |].
  intros hp0 self f v Hv.
  destruct to_int_small as [H2 H3].
  assert (Z.max 3 1 = 3) as Hm by done.
  assert (acquire hp0 (new_pool self 3 f)
          = (Returned (Some (length hp0)),
             hp0 ++ [mk_resource self v true],
             set_haveResources (to_int (haveResources (new_pool self 3 f) - 1))
               (set_slot 0 (Some (length hp0))
                  (tick_calls (new_pool self 3 f))))) as Ha.
  { rewrite acquire_running; [| done | by simpl; rewrite Hm, H3].
    apply (claim_null hp0 (new_pool self 3 f) 0 v); [| done].
    by apply first_free_here. }
  assert (∀ q, release (hp0 ++ [mk_resource self v true]) q (Some (length hp0))
               = (true, hp0 ++ [mk_resource self v false],
                  set_haveResources (to_int (haveResources q + 1)) q)) as Hr.
  { intros q.
    rewrite (release_in_use _ _ _ (mk_resource self v true)); [| | done].
    - do 2 f_equal.
      apply list_eq. intros k.
      destruct (decide (k = length hp0)) as [-> | Hne].
      + rewrite list_lookup_alter_eq.
        by rewrite !lookup_app_r, Nat.sub_diag.
      + rewrite list_lookup_alter_ne by done.
        destruct (decide (k < length hp0)%nat).
        * by rewrite !lookup_app_l.
        * rewrite !lookup_ge_None_2; [done | |]; rewrite length_app; simpl; lia.
    - by rewrite lookup_app_r, Nat.sub_diag. }
  assert (∀ q, release (hp0 ++ [mk_resource self v false]) q
                 (Some (length hp0))
               = (false, hp0 ++ [mk_resource self v false], q)) as Hr2.
  { intros q. apply (release_not_in_use _ _ _ (mk_resource self v false)).
    - by rewrite lookup_app_r, Nat.sub_diag.
    - done. }
  set (A := Some (length hp0)) in *.
  set (p1 := set_haveResources _ _) in Ha.
  assert (do_op OpAcquire (fresh hp0 self 3 f)
          = mk_config (hp0 ++ [mk_resource self v true]) p1 [A]) as E1.
  { unfold do_op, fresh. cbn [c_heap c_pool c_issued]. by rewrite Ha. }
  assert (∀ hpx q iss, release hpx q A = (false, hpx, q) →
            do_op (OpRelease A) (mk_config hpx q iss) = mk_config hpx q iss)
    as E3.
  { intros hpx q iss Hq. unfold do_op. cbn [c_heap c_pool c_issued].
    by rewrite Hq. }
  assert (do_op (OpRelease A) (mk_config (hp0 ++ [mk_resource self v true]) p1 [A])
          = mk_config (hp0 ++ [mk_resource self v false])
              (set_haveResources (to_int (haveResources p1 + 1)) p1) [A]) as E2.
  { unfold do_op. cbn [c_heap c_pool c_issued]. by rewrite Hr. }
  assert (haveResources p1 = 2) as Hp1.
  { unfold p1. simpl. by rewrite Hm, H3. }
  clearbody p1. cbn [run]. rewrite E1, E2, (E3 _ _ _ (Hr2 _)).
  unfold resourcesAvailable. simpl. rewrite Hp1.
  change (2 + 1) with 3. by rewrite H3.
Qed.

(** ** shutdown *)

Lemma claim_stop (hp : heap) p : stop (claim hp p).2 = stop p.
Proof.
  unfold claim. destruct (scan hp (resources p) 0); [| done | done].
  by destruct (fn_new p (calls p)).
Qed.

Lemma acquire_locked_stop (hp : heap) p :
  stop (acquire_locked hp p).2 = stop p.
Proof.
  unfold acquire_locked. destruct (negb (wait_pred p)); [done |].
  destruct (stop p) eqn:Hs; [done |]. by rewrite claim_stop.
Qed.

Lemma release_stop (hp : heap) p h : stop (release hp p h).2 = stop p.
Proof.
  unfold release. destruct h as [l |]; [| done].
  destruct (hp !! l) as [r |]; [| done]. by destruct (inUse r).
Qed.

(** No call resets the flag. *)
Lemma do_op_stop o c :
  stop (c_pool c) = true → stop (c_pool (do_op o c)) = true.
Proof.
  intros Hs. destruct o as [| h |]; simpl.
  - by rewrite acquire_stopped.
  - pose proof (release_stop (c_heap c) (c_pool c) h) as H.
    destruct (release (c_heap c) (c_pool c) h) as [[n hp] p].
    simpl in *. congruence.
  - done.
Qed.

Lemma run_stop os c :
  stop (c_pool c) = true → stop (c_pool (run os c)) = true.
Proof.
  revert c. induction os as [| o os IH]; intros c Hs; [done |].
  simpl. by apply IH, do_op_stop.
Qed.

Lemma run_thread_stop t s :
  stop (s_pool s) = true → stop (s_pool (run_thread t s)) = true.
Proof.
  intros Hs. unfold run_thread.
  destruct (s_threads s !! t) as [[| | | h |] |]; try done.
  by rewrite acquire_locked_stopped.
Qed.

Lemma act_stop a s :
  stop (s_pool s) = true → stop (s_pool (act a s)) = true.
Proof.
  intros Hs. destruct a as [| t | t | h w | |]; simpl; try done.
  - by apply run_thread_stop.
  - pose proof (release_stop (s_heap s) (s_pool s) h) as H.
    destruct (release (s_heap s) (s_pool s) h) as [[n hp] p].
    simpl in *. congruence.
Qed.

Lemma acts_stop l s :
  stop (s_pool s) = true → stop (s_pool (acts l s)) = true.
Proof.
  revert s. induction l as [| a l IH]; intros s Hs; [done |].
  simpl. by apply IH, act_stop.
Qed.

(** A thread that has not finished, in a stopped pool, finishes at its next
    step with a null handle and leaves store and pool alone. *)
Lemma run_thread_stopped t s st :
  stop (s_pool s) = true →
  s_threads s !! t = Some st → st = Entry ∨ st = Ready →
  run_thread t s
  = mk_system (s_heap s) (s_pool s) (<[t:=Finished None]> (s_threads s)).
Proof.
  intros Hs Ht [-> | ->]; unfold run_thread; rewrite Ht.
  - by rewrite Hs.
  - by rewrite acquire_locked_stopped.
Qed.

(** C5. Once [shutdown] has been called, whatever calls follow (releases of
    any handle included) and whatever the counter of available resources
    is, the stop flag stays set and a call of [acquire] returns the null
    handle at once, the state untouched.  In the thread model: a thread
    entering [acquire] after the flag is set finishes with the null handle
    at its first step, so it never joins the wait set. *)
Theorem acquire_after_shutdown_returns_null c os c' s l s' :
  c' = run os (do_op OpShutdown c) →
  s' = acts l (act ShutdownLock s) →
  stop (c_pool c') = true ∧
  acquire (c_heap c') (c_pool c') = (Returned None, c_heap c', c_pool c') ∧
  stop (s_pool s') = true ∧
  ∀ t, s_threads s' !! t = Some Entry →
       act (Run t) s'
       = mk_system (s_heap s') (s_pool s')
                   (<[t:=Finished None]> (s_threads s')) ∧
       s_threads (act (Run t) s') !! t = Some (Finished None).
Proof.
  intros -> ->.
  assert (stop (c_pool (run os (do_op OpShutdown c))) = true) as Hc
    by (by apply run_stop).
  assert (stop (s_pool (acts l (act ShutdownLock s))) = true) as Hs
    by (by apply acts_stop).
  split; [done |]. split; [by apply acquire_stopped |]. split; [done |].
  intros t Ht. simpl act.
  rewrite (run_thread_stopped _ _ Entry) by auto.
  split; [done |]. simpl.
  apply list_lookup_insert_eq. by apply lookup_lt_Some in Ht.
Qed.

(** ** Threads in a stopped pool *)

Lemma wake_not_waiting st : wake st ≠ Waiting.
Proof. by destruct st. Qed.

Lemma wake_on_way_out st : on_way_out st → on_way_out (wake st).
Proof. unfold on_way_out. intros [-> | [-> | ->]]; simpl; auto. Qed.

(** [notify_one] moves at most waiting threads, and only to [Ready]. *)
Lemma notify_one_lookup w ths t :
  notify_one w ths !! t = ths !! t ∨
  (ths !! t = Some Waiting ∧ notify_one w ths !! t = Some Ready).
Proof.
  assert (∀ u, ths !! u = Some Waiting →
            <[u:=Ready]> ths !! t = ths !! t ∨
            (ths !! t = Some Waiting ∧ <[u:=Ready]> ths !! t = Some Ready))
    as Hins.
  { intros u Hu. destruct (decide (u = t)) as [-> | Hne].
    - right. split; [done |]. apply list_lookup_insert_eq.
      by apply lookup_lt_Some in Hu.
    - left. by apply list_lookup_insert_ne. }
  unfold notify_one.
  destruct (ths !! w) as [[| | | h |] |] eqn:Hw; try by apply Hins.
  all: destruct (list_find _ ths) as [[u st] |] eqn:Hfind; [| by left].
  all: apply list_find_Some in Hfind as (Hu & Hst & _).
  all: destruct st; try done; by apply Hins.
Qed.

Lemma run_thread_on_way_out t' s t st :
  stop (s_pool s) = true →
  s_threads s !! t = Some st → on_way_out st →
  ∃ st', s_threads (run_thread t' s) !! t = Some st' ∧ on_way_out st'.
Proof.
  intros Hs Ht Hst. unfold run_thread.
  destruct (s_threads s !! t') as [st0 |] eqn:Ht'; [| eauto].
  assert (st0 = Entry ∨ st0 = Ready →
          ∃ st', <[t':=Finished None]> (s_threads s) !! t = Some st' ∧
                 on_way_out st') as Hfin.
  { intros _. destruct (decide (t' = t)) as [-> | Hne].
    - exists (Finished None). split; [| unfold on_way_out; auto].
      apply list_lookup_insert_eq. by apply lookup_lt_Some in Ht.
    - exists st. by rewrite list_lookup_insert_ne. }
  destruct st0; eauto.
  - rewrite Hs. simpl. auto.
  - rewrite acquire_locked_stopped by done. simpl. auto.
Qed.

(** Under a set flag every step keeps such a thread on its way out. *)
Lemma act_on_way_out a s t st :
  stop (s_pool s) = true →
  s_threads s !! t = Some st → on_way_out st →
  ∃ st', s_threads (act a s) !! t = Some st' ∧ on_way_out st'.
Proof.
  intros Hs Ht Hst. destruct a as [| t' | t' | h w | |]; simpl.
  - exists st. split; [| done]. by apply lookup_app_l_Some.
  - by apply (run_thread_on_way_out _ _ _ st).
  - destruct (decide (t' = t)) as [-> | Hne].
    + exists (wake st). rewrite list_lookup_alter_eq, Ht.
      split; [done |]. by apply wake_on_way_out.
    + exists st. by rewrite list_lookup_alter_ne.
  - destruct (release (s_heap s) (s_pool s) h) as [[n hp] p]. simpl.
    destruct n; [| eauto].
    destruct (notify_one_lookup w (s_threads s) t) as [-> | [_ ->]].
    + eauto.
    + exists Ready. unfold on_way_out. auto.
  - eauto.
  - exists (wake st). rewrite list_lookup_fmap, Ht.
    split; [done |]. by apply wake_on_way_out.
Qed.

(** Under a set flag no step puts a thread into the wait set. *)
Lemma act_no_new_waiter a s t :
  stop (s_pool s) = true →
  s_threads (act a s) !! t = Some Waiting → s_threads s !! t = Some Waiting.
Proof.
  intros Hs. destruct a as [| t' | t' | h w | |]; simpl.
  - intros H. apply lookup_app_Some in H as [H | [_ H]]; [done |].
    by destruct (t - length (s_threads s))%nat.
  - unfold run_thread.
    destruct (s_threads s !! t') as [st0 |] eqn:Ht'; [| done].
    assert (<[t':=Finished None]> (s_threads s) !! t = Some Waiting →
            s_threads s !! t = Some Waiting) as Hfin.
    { intros H. by apply list_lookup_insert_Some in H as [(_ & ? & _) | [_ H]]. }
    destruct st0; try done.
    + by rewrite Hs.
    + by rewrite acquire_locked_stopped.
  - destruct (decide (t' = t)) as [-> | Hne].
    + rewrite list_lookup_alter_eq.
      destruct (s_threads s !! t) as [st |]; [| done].
      simpl. intros [= H]. by apply wake_not_waiting in H.
    + by rewrite list_lookup_alter_ne.
  - destruct (release (s_heap s) (s_pool s) h) as [[n hp] p]. simpl.
    destruct n; [| done].
    destruct (notify_one_lookup w (s_threads s) t) as [-> | [_ ->]]; done.
  - done.
  - rewrite list_lookup_fmap.
    destruct (s_threads s !! t) as [st |]; [| done].
    simpl. intros [= H]. by apply wake_not_waiting in H.
Qed.

Lemma acts_on_way_out l s t st :
  stop (s_pool s) = true →
  s_threads s !! t = Some st → on_way_out st →
  ∃ st', s_threads (acts l s) !! t = Some st' ∧ on_way_out st'.
Proof.
  revert s st. induction l as [| a l IH]; intros s st Hs Ht Hst; [eauto |].
  destruct (act_on_way_out a s t st Hs Ht Hst) as (st1 & H1 & Ho1).
  simpl. apply (IH _ st1); [by apply act_stop | done | done].
Qed.

Lemma acts_no_new_waiter l s t :
  stop (s_pool s) = true →
  s_threads (acts l s) !! t = Some Waiting → s_threads s !! t = Some Waiting.
Proof.
  revert s. induction l as [| a l IH]; intros s Hs; [done |].
  simpl. intros H. apply (act_no_new_waiter a); [done |].
  apply IH; [by apply act_stop | done].
Qed.

(** C9. [shutdown] sets the stop flag under the lock and then notifies all:
    every thread then in the wait set of [acquire] is made ready.  Whatever
    the other threads do between the two steps and afterwards, the flag
    stays set, the wait set stays empty, every thread that was waiting when
    [shutdown] was called is ready or has returned the null handle (never a
    resource), and any thread still inside [acquire] returns the null handle
    at its next step: no thread is left suspended. *)
Theorem shutdown_wakes_every_waiter s l1 l2 s1 s2 s3 :
  s1 = act ShutdownLock s →
  s2 = act ShutdownNotify (acts l1 s1) →
  s3 = acts l2 s2 →
  stop (s_pool s1) = true ∧ s_threads s1 = s_threads s ∧
  (∀ t, s_threads s !! t = Some Waiting →
        s_threads (act ShutdownNotify s1) !! t = Some Ready) ∧
  stop (s_pool s3) = true ∧
  (∀ t, s_threads s3 !! t ≠ Some Waiting) ∧
  (∀ t, s_threads s !! t = Some Waiting →
        s_threads s3 !! t = Some Ready ∨
        s_threads s3 !! t = Some (Finished None)) ∧
  (∀ t st, s_threads s3 !! t = Some st → st = Entry ∨ st = Ready →
           act (Run t) s3
           = mk_system (s_heap s3) (s_pool s3)
                       (<[t:=Finished None]> (s_threads s3))).
Proof.
  intros -> -> ->.
  set (s1 := act ShutdownLock s).
  set (s2 := act ShutdownNotify (acts l1 s1)).
  assert (stop (s_pool s1) = true) as H1 by done.
  assert (stop (s_pool s2) = true) as H2 by (by apply act_stop, acts_stop).
  assert (stop (s_pool (acts l2 s2)) = true) as H3 by (by apply acts_stop).
  assert (∀ t, s_threads s2 !! t ≠ Some Waiting) as Hnone.
  { intros t. unfold s2. simpl. rewrite list_lookup_fmap.
    destruct (s_threads (acts l1 s1) !! t) as [st |]; [| done].
    simpl. intros [= H]. by apply wake_not_waiting in H. }
  assert (∀ t, s_threads (acts l2 s2) !! t ≠ Some Waiting) as Hnone3.
  { intros t H. apply (Hnone t). by apply (acts_no_new_waiter l2). }
  split_and!; try done.
  - intros t Ht. simpl. by rewrite list_lookup_fmap, Ht.
  - intros t Ht.
    destruct (acts_on_way_out l1 s1 t Waiting H1 Ht) as (st1 & Hs1 & Ho1);
      [unfold on_way_out; auto |].
    destruct (act_on_way_out ShutdownNotify _ t st1 (acts_stop _ _ H1) Hs1 Ho1)
      as (st2 & Hs2 & Ho2).
    destruct (acts_on_way_out l2 s2 t st2 H2 Hs2 Ho2) as (st3 & Hs3 & Ho3).
    destruct Ho3 as [-> | [-> | ->]]; [by apply Hnone3 in Hs3 | auto | auto].
  - intros t st Ht Hst. simpl. by apply (run_thread_stopped _ _ st).
Qed.

(** ** Instances and factory invocations *)

Lemma instances_cons s rs :
  instances (s :: rs)
  = (match s with Some _ => 1 | None => 0 end + instances rs)%nat.
Proof.
  unfold instances. rewrite filter_cons.
  destruct s as [l |]; simpl.
  - destruct (decide (is_Some (Some l))) as [_ | Hn]; [done |].
    destruct Hn. by eexists.
  - destruct (decide (is_Some (@None nat))) as [[? H] | _]; done.
Qed.

Lemma instances_le rs : (instances rs ≤ length rs)%nat.
Proof.
  induction rs as [| s rs IH]; [done |].
  rewrite instances_cons. simpl. destruct s; lia.
Qed.

Lemma instances_replicate n : instances (replicate n None) = 0%nat.
Proof.
  induction n as [| n IH]; [done |].
  simpl replicate. by rewrite instances_cons, IH.
Qed.

Lemma instances_insert rs i l :
  rs !! i = Some None → instances (<[i:=Some l]> rs) = S (instances rs).
Proof.
  revert i. induction rs as [| s rs IH]; intros i Hi; [done |].
  destruct i as [| i]; simpl in *.
  - injection Hi as ->. by rewrite !instances_cons.
  - rewrite !instances_cons, (IH i Hi). lia.
Qed.

Lemma constructed_total f n :
  (∀ k, is_Some (f k)) → constructed f n = n.
Proof.
  intros Hf. induction n as [| n IH]; [done |].
  simpl. destruct (Hf n) as [v ->]. by rewrite IH.
Qed.

Lemma keeps_refl (hp : heap) p : keeps hp p hp p.
Proof. repeat split; eauto. Qed.

Lemma keeps_trans (hp1 hp2 hp3 : heap) p1 p2 p3 :
  keeps hp1 p1 hp2 p2 → keeps hp2 p2 hp3 p3 → keeps hp1 p1 hp3 p3.
Proof.
  intros (Hf & Hl & Hs & Hp) (Hf' & Hl' & Hs' & Hp'). split_and!.
  - congruence.
  - congruence.
  - intros i l Hi. by apply Hs', Hs.
  - intros l r Hr. destruct (Hp l r Hr) as (r1 & Hr1 & E1).
    destruct (Hp' l r1 Hr1) as (r2 & Hr2 & E2). exists r2.
    split; [done | congruence].
Qed.

Lemma keeps_alter (hp : heap) p b l n :
  keeps hp p (alter (set_inUse b) l hp) (set_haveResources n p).
Proof.
  split_and!; try done. intros l' r Hr.
  destruct (decide (l = l')) as [-> | Hne].
  - exists (set_inUse b r). by rewrite list_lookup_alter_eq, Hr.
  - exists r. by rewrite list_lookup_alter_ne.
Qed.

Lemma claim_keeps (hp : heap) p :
  pool_wf hp p →
  pool_wf (claim hp p).1.2 (claim hp p).2 ∧
  keeps hp p (claim hp p).1.2 (claim hp p).2.
Proof.
  intros [Hval Hcon]. unfold claim.
  pose proof (scan_spec hp (resources p) 0) as Hscan.
  destruct (scan hp (resources p) 0) as [i | i l |].
  - destruct Hscan as (j & -> & Hj & _). simpl.
    destruct (fn_new p (calls p)) as [v |] eqn:Hv; simpl.
    + split; [split; simpl | split_and!; simpl].
      * intros k l Hk. rewrite length_app. simpl.
        apply list_lookup_insert_Some in Hk as [(-> & [= <-] & _) | [_ Hk]].
        -- lia.
        -- specialize (Hval _ _ Hk). lia.
      * rewrite Hv, (instances_insert _ _ _ Hj). by rewrite Hcon.
      * done.
      * by rewrite length_insert.
      * intros k l Hk. rewrite list_lookup_insert_ne; [done |].
        intros ->. congruence.
      * intros l r Hr. exists r. split; [| done]. by apply lookup_app_l_Some.
    + split; [split; simpl | split_and!; simpl; eauto]; [done |].
      by rewrite Hv.
  - simpl. split; [split; simpl | apply keeps_alter]; [| done].
    intros k l' Hk. rewrite length_alter. by apply (Hval k).
  - simpl. split; [by split | by apply (keeps_refl hp p)].
Qed.

Lemma acquire_keeps (hp : heap) p :
  pool_wf hp p →
  pool_wf (acquire hp p).1.2 (acquire hp p).2 ∧
  keeps hp p (acquire hp p).1.2 (acquire hp p).2.
Proof.
  intros Hwf. unfold acquire, acquire_locked.
  destruct (stop p); [split; [done | apply keeps_refl] |].
  destruct (negb (wait_pred p)); [split; [done | apply keeps_refl] |].
  by apply claim_keeps.
Qed.

Lemma release_keeps (hp : heap) p h :
  pool_wf hp p →
  pool_wf (release hp p h).1.2 (release hp p h).2 ∧
  keeps hp p (release hp p h).1.2 (release hp p h).2.
Proof.
  intros Hwf. unfold release.
  destruct h as [l |]; [| split; [done | apply keeps_refl]].
  destruct (hp !! l) as [r |]; [| split; [done | apply keeps_refl]].
  destruct (inUse r); [| split; [done | apply keeps_refl]].
  simpl. split; [| apply keeps_alter].
  destruct Hwf as [Hval Hcon]. split; simpl; [| done].
  intros k l' Hk. rewrite length_alter. by apply (Hval k).
Qed.

Lemma do_op_keeps o c :
  pool_wf (c_heap c) (c_pool c) →
  pool_wf (c_heap (do_op o c)) (c_pool (do_op o c)) ∧
  keeps (c_heap c) (c_pool c) (c_heap (do_op o c)) (c_pool (do_op o c)).
Proof.
  intros Hwf. destruct o as [| h |]; simpl.
  - pose proof (acquire_keeps _ _ Hwf) as H.
    by destruct (acquire (c_heap c) (c_pool c)) as [[r hp] p].
  - pose proof (release_keeps _ _ h Hwf) as H.
    by destruct (release (c_heap c) (c_pool c) h) as [[n hp] p].
  - split; [done | by apply (keeps_refl (c_heap c) (c_pool c))].
Qed.

Lemma run_keeps os c :
  pool_wf (c_heap c) (c_pool c) →
  pool_wf (c_heap (run os c)) (c_pool (run os c)) ∧
  keeps (c_heap c) (c_pool c) (c_heap (run os c)) (c_pool (run os c)).
Proof.
  revert c. induction os as [| o os IH]; intros c Hwf.
  - split; [done | apply keeps_refl].
  - destruct (do_op_keeps o c Hwf) as [Hwf1 Hk1].
    destruct (IH _ Hwf1) as [Hwf2 Hk2]. simpl.
    split; [done |]. by apply (keeps_trans _ _ _ _ _ _ Hk1).
Qed.

Lemma pool_wf_new (hp : heap) self size_ f : pool_wf hp (new_pool self size_ f).
Proof.
  split; simpl.
  - intros i l Hi. apply lookup_replicate in Hi as [? _]. done.
  - by rewrite instances_replicate.
Qed.

Lemma run_size os c : size (c_pool (run os c)) = size (c_pool c).
Proof.
  revert c. induction os as [| o os IH]; intros c; [done |].
  simpl. by rewrite IH, do_op_size.
Qed.

(** C7 (as the code has it).  Over any sequence of calls on a pool, with any
    handles released, the factory invocations that returned an instance are
    at most as many as the pool's capacity, each of them filling one empty
    slot; so a factory that never raises is invoked at most capacity times.
    (An invocation that raises leaves its slot empty and a later [acquire]
    invokes the factory for that slot again.)  An [acquire] that claims a
    slot holding an instance returns that instance without invoking the
    factory, and a slot once filled keeps its object, with the same payload,
    through every later call. *)
Theorem factory_instances_at_most_capacity (hp : heap) self size_ f os c :
  c = run os (fresh hp self size_ f) →
  size (c_pool c) = Z.max size_ 1 ∧
  constructed f (calls (c_pool c)) = instances (resources (c_pool c)) ∧
  Z.of_nat (constructed f (calls (c_pool c))) <= size (c_pool c) ∧
  ((∀ k, is_Some (f k)) → Z.of_nat (calls (c_pool c)) <= size (c_pool c)) ∧
  (∀ i l, stop (c_pool c) = false → 0 < haveResources (c_pool c) →
     first_free (c_heap c) (resources (c_pool c)) i (Some l) →
     ∃ hp' p',
       acquire (c_heap c) (c_pool c) = (Returned (Some l), hp', p') ∧
       calls p' = calls (c_pool c) ∧
       resources p' = resources (c_pool c) ∧
       raw_resource <$> hp' !! l = raw_resource <$> c_heap c !! l) ∧
  (∀ i l os', resources (c_pool c) !! i = Some (Some l) →
     resources (c_pool (run os' c)) !! i = Some (Some l) ∧
     ∃ r r', c_heap c !! l = Some r ∧ c_heap (run os' c) !! l = Some r' ∧
             raw_resource r' = raw_resource r).
Proof.
  intros ->.
  destruct (run_keeps os (fresh hp self size_ f) (pool_wf_new _ _ _ _))
    as [Hwf (Hf & Hlen & _ & _)].
  set (c := run os (fresh hp self size_ f)) in *.
  pose proof Hwf as [Hval Hcon].
  assert (size (c_pool c) = Z.max size_ 1) as Hsz by apply run_size.
  simpl in Hf. rewrite Hf in Hcon.
  assert (Z.of_nat (length (resources (c_pool c))) = Z.max size_ 1) as Hl.
  { rewrite Hlen. apply new_pool_length. }
  pose proof (instances_le (resources (c_pool c))) as Hle.
  split_and!; try done.
  - lia.
  - intros Htot. rewrite (constructed_total f _ Htot) in Hcon. lia.
  - intros i l Hstop Hpos Hfree.
    rewrite acquire_running, (claim_idle _ _ _ _ Hfree) by done.
    eexists _, _. split; [done |]. simpl. split_and!; try done.
    rewrite list_lookup_alter_eq. by destruct (c_heap c !! l).
  - intros i l os' Hi.
    destruct (run_keeps os' c Hwf) as [_ (_ & _ & Hs & Hp)].
    split; [by apply Hs |].
    destruct (lookup_lt_is_Some_2 (c_heap c) l (Hval _ _ Hi)) as [r Hr].
    destruct (Hp l r Hr) as (r' & Hr' & E). by exists r, r'.
Qed.

(** * Further properties of the guarded blocks *)

(** ** Flags seen through a handle *)

Lemma in_use_true (hp : heap) l :
  in_use hp (Some l) = true ↔ ∃ r, hp !! l = Some r ∧ inUse r = true.
Proof.
  unfold in_use. destruct (hp !! l) as [r |]; split.
  - eauto.
  - by intros (r' & [= <-] & ?).
  - done.
  - by intros (r' & ? & _).
Qed.

Lemma in_use_idle (hp : heap) l : idle hp l = true → in_use hp (Some l) = false.
Proof.
  intros (r & Hr & Hu)%idle_Some. unfold in_use. by rewrite Hr.
Qed.

Lemma in_use_alter_eq (hp : heap) b l r :
  hp !! l = Some r → in_use (alter (set_inUse b) l hp) (Some l) = b.
Proof. intros Hl. unfold in_use. by rewrite list_lookup_alter_eq, Hl. Qed.

Lemma in_use_alter_ne (hp : heap) f l l' :
  l ≠ l' → in_use (alter f l hp) (Some l') = in_use hp (Some l').
Proof. intros Hne. unfold in_use. by rewrite list_lookup_alter_ne. Qed.

Lemma in_use_grows (hp hp2 : heap) l :
  in_use hp (Some l) = true → in_use (hp ++ hp2) (Some l) = true.
Proof.
  intros (r & Hr & Hu)%in_use_true. apply in_use_true. exists r.
  split; [by apply lookup_app_l_Some | done].
Qed.

(** ** The three ways through [acquire] *)

Lemma acquire_cases (hp : heap) p r hp' p' :
  acquire hp p = (r, hp', p') →
  (stop p = true ∧ r = Returned None ∧ hp' = hp ∧ p' = p) ∨
  (stop p = false ∧ haveResources p <= 0 ∧ r = Blocked ∧ hp' = hp ∧ p' = p) ∨
  (stop p = false ∧ 0 < haveResources p ∧ claim hp p = (r, hp', p')).
Proof.
  destruct (stop p) eqn:Hs.
  - rewrite acquire_stopped by done. intros [= <- <- <-]. by left.
  - destruct (Z_lt_le_dec 0 (haveResources p)) as [Hpos | Hle].
    + rewrite acquire_running by done. intros Hc. right. by right.
    + rewrite acquire_exhausted by done. intros [= <- <- <-]. right. by left.
Qed.

(** What [claim] does to the flags: the handle it returns was not in use and
    now is; what was in use stays in use. *)
Lemma claim_flags (hp : heap) p r hp' p' :
  claim hp p = (r, hp', p') →
  (∀ l, r = Returned (Some l) →
        in_use hp (Some l) = false ∧ in_use hp' (Some l) = true) ∧
  (∀ l, in_use hp (Some l) = true → in_use hp' (Some l) = true).
Proof.
  unfold claim. pose proof (scan_spec hp (resources p) 0) as Hscan.
  destruct (scan hp (resources p) 0) as [i | i l0 |].
  - destruct (fn_new p (calls p)) as [v |]; intros [= <- <- <-].
    + split.
      * intros l [= <-]. split.
        -- unfold in_use. by rewrite lookup_ge_None_2.
        -- unfold in_use. by rewrite lookup_app_r, Nat.sub_diag.
      * intros l. apply in_use_grows.
    + split; [done | auto].
  - destruct Hscan as (j & _ & _ & Hfree & _). simpl in Hfree.
    destruct (idle_Some _ _ Hfree) as (r0 & Hr0 & _).
    intros [= <- <- <-]. split.
    + intros l [= <-]. split; [by apply in_use_idle |].
      by apply (in_use_alter_eq _ _ _ r0).
    + intros l Hl. destruct (decide (l0 = l)) as [-> | Hne].
      * by apply (in_use_alter_eq _ _ _ r0).
      * by rewrite in_use_alter_ne.
  - intros [= <- <- <-]. split; [done | auto].
Qed.

(** X1. [acquire] hands out exclusively: a handle it returns was not in use
    when the call began (it is a new object or an idle one) and is in use
    afterwards, and no object that was in use is touched, so a handle that is
    still in use is never returned to a second caller. *)
Theorem acquire_hands_out_exclusively (hp : heap) p r hp' p' :
  acquire hp p = (r, hp', p') →
  (∀ l, r = Returned (Some l) →
        in_use hp (Some l) = false ∧ in_use hp' (Some l) = true) ∧
  (∀ l, in_use hp (Some l) = true →
        in_use hp' (Some l) = true ∧ r ≠ Returned (Some l)).
Proof.
  intros Ha.
  assert ((∀ l, r = Returned (Some l) →
             in_use hp (Some l) = false ∧ in_use hp' (Some l) = true) ∧
          (∀ l, in_use hp (Some l) = true → in_use hp' (Some l) = true))
    as [Hnew Hold].
  { destruct (acquire_cases _ _ _ _ _ Ha)
      as [(_ & -> & -> & _) | [(_ & _ & -> & -> & _) | (_ & _ & Hc)]].
    - split; [done | auto].
    - split; [done | auto].
    - by apply (claim_flags _ _ _ _ _ Hc). }
  split; [done |]. intros l Hl. split; [by apply Hold |].
  intros ->. destruct (Hnew l eq_refl) as [Hf _]. congruence.
Qed.

(** X2. The outcome of [acquire] in a pool that satisfies the invariant: it
    returns the null handle exactly when the pool is stopped, and it is
    suspended exactly when the pool is not stopped and no slot is free; in
    both cases the state is left as it was. *)
Theorem acquire_outcome_by_state (hp : heap) p :
  pool_inv hp p →
  ((acquire hp p).1.1 = Returned None ↔ stop p = true) ∧
  ((acquire hp p).1.1 = Blocked ↔
   stop p = false ∧ free_count hp (resources p) = 0) ∧
  ((acquire hp p).1.1 = Returned None ∨ (acquire hp p).1.1 = Blocked →
   acquire hp p = ((acquire hp p).1.1, hp, p)).
Proof.
  intros Hinv. pose proof (inv_count _ _ Hinv) as Hcnt.
  pose proof (free_count_bounds hp (resources p)) as Hb.
  destruct (stop p) eqn:Hs.
  - rewrite acquire_stopped by done. simpl. split_and!; try done.
    split; [done | by intros [? _]].
  - destruct (Z_lt_le_dec 0 (haveResources p)) as [Hpos | Hle].
    + rewrite acquire_running by done.
      destruct (claim hp p) as [[r hp'] p'] eqn:Hc.
      destruct (pool_inv_claim _ _ _ _ _ Hinv Hpos Hc) as (_ & _ & Hn & Hb' & _).
      simpl. split_and!.
      * split; [by intros -> | done].
      * split; [by intros -> | lia].
      * by intros [-> | ->].
    + rewrite acquire_exhausted by done. simpl. split_and!; try done.
      split; [intros _; split; [done | lia] | done].
Qed.

(** ** Giving a resource back *)

(** The count of free slots when the flag of the object of one slot is set. *)
Lemma free_count_flag (hp : heap) rs i l r b :
  slots_distinct rs → rs !! i = Some (Some l) → hp !! l = Some r →
  free_count (alter (set_inUse b) l hp) rs
  = free_count hp rs - b2z (negb (inUse r)) + b2z (negb b).
Proof.
  intros Hdis Hi Hl.
  rewrite (free_count_change hp _ _ i (Some l)); [| done |].
  - simpl slot_free. rewrite (idle_alter_eq _ _ _ r) by done.
    unfold idle. by rewrite Hl.
  - intros k [l' |] Hne Hk; [| done]. simpl. apply idle_alter_ne.
    intros ->. apply Hne. by apply (Hdis k i l').
Qed.

Lemma alter_flag_back (hp : heap) l r :
  hp !! l = Some r →
  alter (set_inUse (inUse r)) l (alter (set_inUse (negb (inUse r))) l hp) = hp.
Proof.
  intros Hl. rewrite list_alter_alter_eq. apply list_eq. intros k.
  destruct (decide (l = k)) as [<- | Hne].
  - rewrite list_lookup_alter_eq, Hl. by destruct r.
  - by rewrite list_lookup_alter_ne.
Qed.

Lemma set_haveResources_same p : set_haveResources (haveResources p) p = p.
Proof. by destruct p. Qed.

Lemma set_haveResources_twice n m p :
  set_haveResources n (set_haveResources m p) = set_haveResources n p.
Proof. done. Qed.

(** X3. [release] of a handle that is the content of a slot and is in use,
    in a pool that satisfies the invariant: the notification is reached, the
    counter goes up by exactly 1, the object is no longer in use and keeps its
    payload, nothing else in the store and no member of the pool other than
    the counter changes, and the invariant still holds. *)
Theorem release_returns_resource (hp : heap) p i l :
  pool_inv hp p →
  resources p !! i = Some (Some l) →
  in_use hp (Some l) = true →
  ∃ hp' p',
    release hp p (Some l) = (true, hp', p') ∧
    haveResources p' = haveResources p + 1 ∧
    p' = set_haveResources (haveResources p + 1) p ∧
    in_use hp' (Some l) = false ∧
    slot_free hp' (Some l) = true ∧
    raw_resource <$> hp' !! l = raw_resource <$> hp !! l ∧
    (∀ l', l' ≠ l → hp' !! l' = hp !! l') ∧
    length hp' = length hp ∧
    pool_inv hp' p'.
Proof.
  intros Hinv Hi (r & Hl & Hu)%in_use_true.
  rewrite (release_in_use _ _ _ _ Hl Hu).
  assert (∀ l0, Some l = Some l0 → ∃ i0, resources p !! i0 = Some (Some l0))
    as Hslot by (intros l0 [= <-]; eauto).
  destruct (pool_inv_release _ _ _ _ _ _ Hinv Hslot
              (release_in_use _ _ _ _ Hl Hu)) as [Hinv' _].
  pose proof (inv_count _ _ Hinv) as Hcnt.
  pose proof (inv_count _ _ Hinv') as Hcnt'. simpl in Hcnt'.
  rewrite (free_count_flag _ _ i l r) in Hcnt'
    by (done || apply (inv_distinct _ _ Hinv)).
  rewrite Hu in Hcnt'. simpl in Hcnt'.
  assert (to_int (haveResources p + 1) = haveResources p + 1) as Hto by lia.
  eexists _, _. split; [done |]. rewrite Hto in *. simpl.
  split_and!; try done.
  - by apply (in_use_alter_eq _ _ _ r).
  - by rewrite (idle_alter_eq _ _ _ r).
  - by rewrite list_lookup_alter_eq, Hl.
  - intros l' Hne. by rewrite list_lookup_alter_ne.
  - apply length_alter.
Qed.

(** [claim] returning a handle, under the invariant: where the handle sits
    and what the slots before it look like afterwards. *)
Lemma claim_returns (hp : heap) p l hp1 p1 :
  pool_inv hp p → 0 < haveResources p →
  claim hp p = (Returned (Some l), hp1, p1) →
  pool_inv hp1 p1 ∧ haveResources p1 = haveResources p - 1 ∧
  stop p1 = stop p ∧
  ∃ j r1,
    resources p1 !! j = Some (Some l) ∧ hp1 !! l = Some r1 ∧ inUse r1 = true ∧
    ∀ k s', (k < j)%nat → resources p1 !! k = Some s' →
            slot_free hp1 s' = false.
Proof.
  intros Hinv Hpos Hc.
  destruct (pool_inv_claim _ _ _ _ _ Hinv Hpos Hc) as (Hinv1 & _).
  pose proof Hinv as [Hsz Hmax Hval Hdis Hcnt].
  pose proof (free_count_bounds hp (resources p)) as Hb.
  assert (to_int (haveResources p - 1) = haveResources p - 1) as Hto
    by (apply to_int_id; unfold INT_MAX in *; lia).
  split; [done |]. revert Hc. unfold claim.
  pose proof (scan_spec hp (resources p) 0) as Hscan.
  destruct (scan hp (resources p) 0) as [i | i l0 |]; [| | done].
  - destruct Hscan as (j & -> & Hj & _ & Hbefore).
    destruct (fn_new p (calls p)) as [v |]; [| done].
    intros [= <- <- <-]. simpl. split; [done |]. split; [done |].
    exists j, (mk_resource (this p) v true). split_and!.
    + apply list_lookup_insert_eq. by apply lookup_lt_Some in Hj.
    + by rewrite lookup_app_r, Nat.sub_diag.
    + done.
    + intros k s' Hk Hs'. rewrite list_lookup_insert_ne in Hs' by lia.
      pose proof (Hbefore _ _ Hk Hs') as Hnf.
      destruct s' as [l' |]; [| done]. simpl in *.
      rewrite idle_app; [done |]. by apply (Hval k).
  - destruct Hscan as (j & -> & Hj & Hfree & Hbefore).
    intros [= <- <- <-]. simpl. split; [done |]. split; [done |].
    simpl in Hfree. destruct (idle_Some _ _ Hfree) as (r0 & Hr0 & _).
    exists j, (set_inUse true r0). split_and!.
    + done.
    + by rewrite list_lookup_alter_eq, Hr0.
    + done.
    + intros k s' Hk Hs'. pose proof (Hbefore _ _ Hk Hs') as Hnf.
      destruct s' as [l' |]; [| done]. simpl in *.
      rewrite idle_alter_ne; [done |].
      intros ->. pose proof (Hdis k j _ Hs' Hj). lia.
Qed.

(** X4. Round trip.  When [acquire] returns a handle in a pool that
    satisfies the invariant, releasing that handle puts the counter back to
    its value before the call, and the next [acquire] returns the same handle
    and leads to the very state the first one led to, without invoking the
    factory: a released resource is the next one handed out. *)
Theorem release_then_acquire_round_trip (hp : heap) p l hp1 p1 :
  pool_inv hp p →
  acquire hp p = (Returned (Some l), hp1, p1) →
  ∃ hp2 p2,
    release hp1 p1 (Some l) = (true, hp2, p2) ∧
    haveResources p2 = haveResources p ∧
    resources p2 = resources p1 ∧ calls p2 = calls p1 ∧
    acquire hp2 p2 = (Returned (Some l), hp1, p1).
Proof.
  intros Hinv Ha.
  destruct (acquire_cases _ _ _ _ _ Ha)
    as [(_ & [=] & _) | [(_ & _ & [=] & _) | (Hs & Hpos & Hc)]].
  destruct (claim_returns _ _ _ _ _ Hinv Hpos Hc)
    as (Hinv1 & Hhr & Hs1 & j & r1 & Hj & Hr1 & Hu1 & Hbefore).
  pose proof (inv_count _ _ Hinv) as Hcnt.
  pose proof (inv_size _ _ Hinv) as Hsz.
  pose proof (inv_max _ _ Hinv) as Hmax.
  pose proof (free_count_bounds hp (resources p)) as Hb.
  rewrite (release_in_use _ _ _ _ Hr1 Hu1).
  eexists _, _. split; [done |]. simpl.
  assert (to_int (haveResources p1 + 1) = haveResources p) as Hup
    by (rewrite to_int_id; unfold INT_MAX in *; lia).
  rewrite Hup. split_and!; try done.
  rewrite acquire_running; [| by simpl; congruence | by simpl].
  rewrite (claim_idle _ _ j l).
  - simpl. rewrite set_haveResources_twice.
    replace (to_int (haveResources p - 1)) with (haveResources p1)
      by (rewrite to_int_id; unfold INT_MAX in *; lia).
    rewrite set_haveResources_same. do 2 f_equal.
    pose proof (alter_flag_back hp1 l r1 Hr1) as Hback.
    by rewrite Hu1 in Hback.
  - split_and!; simpl.
    + done.
    + by rewrite (idle_alter_eq _ _ _ r1).
    + intros k s' Hk Hs'. pose proof (Hbefore _ _ Hk Hs') as Hnf.
      destruct s' as [l' |]; [| done]. simpl in *.
      rewrite idle_alter_ne; [done |].
      intros ->. pose proof (inv_distinct _ _ Hinv1 k j _ Hs' Hj). lia.
Qed.

(** ** Waiters and notifications *)

Lemma free_count_zero_inv (hp : heap) rs j s :
  free_count hp rs = 0 → rs !! j = Some s → slot_free hp s = false.
Proof.
  revert j. induction rs as [| s0 rs IH]; intros j H0 Hj; [done |].
  rewrite free_count_cons in H0.
  pose proof (free_count_bounds hp rs) as Hb.
  destruct (slot_free hp s0) eqn:Hs0; simpl in H0; [lia |].
  destruct j as [| j]; simpl in Hj.
  - by injection Hj as <-.
  - apply (IH j); [lia | done].
Qed.

(** [notify_one] wakes one waiter, the chosen one if it waits, and does
    nothing when nobody waits. *)
Lemma notify_one_exact w ths :
  (∃ t, ths !! t = Some Waiting ∧ notify_one w ths = <[t:=Ready]> ths ∧
        (ths !! w = Some Waiting → t = w)) ∨
  ((∀ t, ths !! t ≠ Some Waiting) ∧ notify_one w ths = ths).
Proof.
  assert (∀ o : option tstate, o ≠ Some Waiting →
            (∃ t, ths !! t = Some Waiting ∧
                  match list_find (λ st, is_waiting st = true) ths with
                  | Some (t, _) => <[t:=Ready]> ths
                  | None => ths
                  end = <[t:=Ready]> ths ∧
                  (o = Some Waiting → t = w)) ∨
            ((∀ t, ths !! t ≠ Some Waiting) ∧
             match list_find (λ st, is_waiting st = true) ths with
             | Some (t, _) => <[t:=Ready]> ths
             | None => ths
             end = ths)) as Hrest.
  { intros o Ho.
    destruct (list_find _ ths) as [[t st] |] eqn:Hfind.
    - apply list_find_Some in Hfind as (Ht & Hst & _).
      left. exists t. by destruct st.
    - right. split; [| done]. intros t Ht.
      apply list_find_None in Hfind. rewrite List.Forall_forall in Hfind.
      apply (Hfind Waiting); [| done].
      by apply list_elem_of_In, (list_elem_of_lookup_2 _ t). }
  unfold notify_one.
  destruct (ths !! w) as [[| | | h |] |] eqn:Hw; try by apply Hrest.
  left. by exists w.
Qed.

Lemma acquire_locked_exhausted (hp : heap) p :
  stop p = false → haveResources p <= 0 →
  acquire_locked hp p = (Blocked, hp, p).
Proof.
  intros Hs Hn. unfold acquire_locked, wait_pred. rewrite Hs.
  destruct (0 <? haveResources p) eqn:Hlt; [| done].
  apply Z.ltb_lt in Hlt. lia.
Qed.

Lemma insert_after_wake t (ths : list tstate) :
  ths !! t = Some Waiting → <[t:=Waiting]> (alter wake t ths) = ths.
Proof.
  intros Ht. apply list_eq. intros k.
  destruct (decide (t = k)) as [<- | Hne].
  - rewrite list_lookup_insert_eq; [done |].
    rewrite length_alter. by apply lookup_lt_Some in Ht.
  - by rewrite list_lookup_insert_ne, list_lookup_alter_ne.
Qed.

(** X5. The notification of [release] in the thread model.  A release that
    frees nothing (null handle, or object not in use) returns before
    [notify_one]: no thread and no part of the state changes.  A release
    that frees a resource wakes exactly one waiting thread (the one the
    runtime picks) and leaves every other thread as it is; when no thread
    waits, the thread states are unchanged. *)
Theorem release_wakes_one_waiter s h w :
  (in_use (s_heap s) h = false → act (Release h w) s = s) ∧
  (in_use (s_heap s) h = true →
   s_heap (act (Release h w) s) = (release (s_heap s) (s_pool s) h).1.2 ∧
   s_pool (act (Release h w) s) = (release (s_heap s) (s_pool s) h).2 ∧
   ((∃ t, s_threads s !! t = Some Waiting ∧
          s_threads (act (Release h w) s) = <[t:=Ready]> (s_threads s) ∧
          (s_threads s !! w = Some Waiting → t = w)) ∨
    ((∀ t, s_threads s !! t ≠ Some Waiting) ∧
     s_threads (act (Release h w) s) = s_threads s))).
Proof.
  split; intros Hu; simpl.
  - rewrite release_not_releasable by done. by destruct s.
  - destruct h as [l |]; [| done].
    apply in_use_true in Hu as (r & Hl & Hu).
    rewrite (release_in_use _ _ _ _ Hl Hu). simpl.
    split; [done |]. split; [done |]. apply notify_one_exact.
Qed.

(** X6. Spurious wake-ups are harmless: while the pool is not stopped and
    has no resource available, a waiting thread that wakes up without a
    notification re-evaluates the predicate under the lock and goes back to
    waiting; the whole system is as before. *)
Theorem spurious_wakeup_goes_back_to_wait s t :
  stop (s_pool s) = false →
  haveResources (s_pool s) <= 0 →
  s_threads s !! t = Some Waiting →
  acts [Spurious t; Run t] s = s.
Proof.
  intros Hs Hn Ht. simpl. unfold run_thread. simpl.
  rewrite list_lookup_alter_eq, Ht. simpl.
  rewrite acquire_locked_exhausted by done. simpl.
  rewrite insert_after_wake by done. by destruct s.
Qed.

(** X7. Hand-over.  In a pool that satisfies the invariant, is not stopped
    and has no resource available, with thread [w] waiting: when the handle
    of a slot is released and the notification picks [w], the next step of
    [w] returns that very handle, and store and pool are again as they were
    before the release. *)
Theorem release_hands_over_to_waiter s i l w :
  pool_inv (s_heap s) (s_pool s) →
  stop (s_pool s) = false →
  haveResources (s_pool s) = 0 →
  resources (s_pool s) !! i = Some (Some l) →
  s_threads s !! w = Some Waiting →
  acts [Release (Some l) w; Run w] s
  = mk_system (s_heap s) (s_pool s) (<[w:=Finished (Some l)]> (s_threads s)).
Proof.
  intros Hinv Hs H0 Hi Hw.
  pose proof Hinv as [Hsz Hmax Hval Hdis Hcnt].
  assert (free_count (s_heap s) (resources (s_pool s)) = 0) as Hfc by lia.
  assert (∃ r, s_heap s !! l = Some r ∧ inUse r = true) as (r & Hl & Hu).
  { pose proof (free_count_zero_inv _ _ _ _ Hfc Hi) as Hnf.
    destruct (lookup_lt_is_Some_2 (s_heap s) l (Hval _ _ Hi)) as [r Hr].
    exists r. split; [done |]. simpl in Hnf. unfold idle in Hnf.
    rewrite Hr in Hnf. by destruct (inUse r). }
  assert (to_int (0 + 1) = 1 ∧ to_int (1 - 1) = 0) as [H1 H2]
    by (split; apply to_int_id; unfold INT_MAX; lia).
  assert (act (Release (Some l) w) s
          = mk_system (alter (set_inUse false) l (s_heap s))
                      (set_haveResources 1 (s_pool s))
                      (<[w:=Ready]> (s_threads s))) as E1.
  { unfold act. rewrite (release_in_use _ _ _ _ Hl Hu), H0, H1.
    unfold notify_one. by rewrite Hw. }
  cbn [acts]. rewrite E1. simpl. unfold run_thread. simpl.
  rewrite list_lookup_insert_eq by (by apply lookup_lt_Some in Hw).
  rewrite acquire_locked_running by done.
  rewrite (claim_idle _ _ i l).
  - simpl. rewrite H2, list_insert_insert_eq.
    pose proof (alter_flag_back (s_heap s) l r Hl) as Hback.
    rewrite Hu in Hback. simpl in Hback. rewrite Hback.
    f_equal. clear -H0. destruct (s_pool s). simpl in *. by subst.
  - split_and!; simpl.
    + done.
    + by rewrite (idle_alter_eq _ _ _ r).
    + intros k s' Hk Hs'.
      pose proof (free_count_zero_inv _ _ _ _ Hfc Hs') as Hnf.
      destruct s' as [l' |]; [| done]. simpl in *.
      rewrite idle_alter_ne; [done |].
      intros ->. pose proof (Hdis k i _ Hs' Hi). lia.
Qed.

(** ** What no call changes *)

Lemma claim_members (hp : heap) p :
  this (claim hp p).2 = this p ∧ fn_new (claim hp p).2 = fn_new p ∧
  length (resources (claim hp p).2) = length (resources p) ∧
  (length hp ≤ length (claim hp p).1.2)%nat.
Proof.
  unfold claim. destruct (scan hp (resources p) 0) as [i | i l |]; simpl.
  - destruct (fn_new p (calls p)); simpl; [| done].
    rewrite length_insert, length_app. split_and!; try done. lia.
  - by rewrite length_alter.
  - done.
Qed.

Lemma acquire_members (hp : heap) p :
  this (acquire hp p).2 = this p ∧ fn_new (acquire hp p).2 = fn_new p ∧
  length (resources (acquire hp p).2) = length (resources p) ∧
  (length hp ≤ length (acquire hp p).1.2)%nat.
Proof.
  unfold acquire, acquire_locked.
  destruct (stop p); [done |]. destruct (negb (wait_pred p)); [done |].
  apply claim_members.
Qed.

Lemma release_members (hp : heap) p h :
  this (release hp p h).2 = this p ∧ fn_new (release hp p h).2 = fn_new p ∧
  resources (release hp p h).2 = resources p ∧
  calls (release hp p h).2 = calls p ∧
  length (release hp p h).1.2 = length hp.
Proof.
  unfold release. destruct h as [l |]; [| done].
  destruct (hp !! l) as [r |]; [| done].
  destruct (inUse r); simpl; [| done]. by rewrite length_alter.
Qed.

Lemma do_op_members o c :
  this (c_pool (do_op o c)) = this (c_pool c) ∧
  fn_new (c_pool (do_op o c)) = fn_new (c_pool c) ∧
  length (resources (c_pool (do_op o c))) = length (resources (c_pool c)) ∧
  (length (c_heap c) ≤ length (c_heap (do_op o c)))%nat ∧
  (o ≠ OpShutdown → stop (c_pool (do_op o c)) = stop (c_pool c)).
Proof.
  destruct o as [| h |]; simpl.
  - pose proof (acquire_members (c_heap c) (c_pool c)) as (? & ? & ? & ?).
    pose proof (acquire_locked_stop (c_heap c) (c_pool c)) as Hst.
    unfold acquire in *. destruct (stop (c_pool c)) eqn:Hs; [done |].
    destruct (acquire_locked (c_heap c) (c_pool c)) as [[r hp] p].
    simpl in *. split_and!; try done; intros _; congruence.
  - pose proof (release_members (c_heap c) (c_pool c) h) as (? & ? & Hr & _ & Hl).
    pose proof (release_stop (c_heap c) (c_pool c) h) as Hst.
    destruct (release (c_heap c) (c_pool c) h) as [[n hp] p].
    simpl in *. split_and!; try done; [congruence | lia].
  - done.
Qed.

Lemma pool_members_fixed_this os c :
  this (c_pool (run os c)) = this (c_pool c).
Proof.
  revert c. induction os as [| o os IH]; intros c; [done |]. simpl.
  rewrite IH. apply do_op_members.
Qed.

(** X8. Over any sequence of calls, with any handles released, the pool
    keeps its identity, its capacity, its factory and its number of slots,
    and the store of objects never shrinks.  The stop flag, once set, stays
    set, and only [shutdown] sets it: a sequence without [shutdown] leaves
    the flag as it was. *)
Theorem pool_members_are_fixed os c :
  this (c_pool (run os c)) = this (c_pool c) ∧
  size (c_pool (run os c)) = size (c_pool c) ∧
  fn_new (c_pool (run os c)) = fn_new (c_pool c) ∧
  length (resources (c_pool (run os c))) = length (resources (c_pool c)) ∧
  (length (c_heap c) ≤ length (c_heap (run os c)))%nat ∧
  (stop (c_pool c) = true → stop (c_pool (run os c)) = true) ∧
  (OpShutdown ∉ os → stop (c_pool (run os c)) = stop (c_pool c)).
Proof.
  split_and!; [| apply run_size | | | | apply run_stop |].
  all: revert c; induction os as [| o os IH]; intros c; [done |]; simpl.
  all: pose proof (do_op_members o c) as (Ht & Hf & Hl & Hh & Hs).
  - by rewrite IH.
  - by rewrite IH.
  - by rewrite IH.
  - specialize (IH (do_op o c)). lia.
  - intros Hno. apply not_elem_of_cons in Hno as [Hne Hno].
    rewrite IH by done. apply Hs. congruence.
Qed.

Lemma release_shutdown_commute o c :
  (∃ h, o = OpRelease h) →
  do_op o (do_op OpShutdown c) = do_op OpShutdown (do_op o c).
Proof.
  intros [h ->]. simpl. unfold release.
  destruct h as [l |]; [| done].
  destruct (c_heap c !! l) as [r |]; [| done]. by destruct (inUse r).
Qed.

(** X9. [shutdown] commutes with releases: a sequence of releases made
    after [shutdown] leaves store, pool and handles exactly as the same
    releases made before it.  So resources given back after the pool was
    stopped are counted as usual. *)
Theorem releases_after_shutdown_count hs c :
  run (OpShutdown :: (OpRelease <$> hs)) c
  = run ((OpRelease <$> hs) ++ [OpShutdown]) c.
Proof.
  revert c. induction hs as [| h hs IH]; intros c; [done |].
  change (run (OpShutdown :: (OpRelease <$> h :: hs)) c)
    with (run (OpRelease <$> hs) (do_op (OpRelease h) (do_op OpShutdown c))).
  rewrite release_shutdown_commute by eauto.
  change (run ((OpRelease <$> h :: hs) ++ [OpShutdown]) c)
    with (run ((OpRelease <$> hs) ++ [OpShutdown]) (do_op (OpRelease h) c)).
  rewrite <- IH. done.
Qed.

(** ** Ownership of the objects *)

Lemma pool_alter_flag (hp : heap) b l l' :
  pool <$> alter (set_inUse b) l hp !! l' = pool <$> hp !! l'.
Proof.
  destruct (decide (l = l')) as [<- | Hne].
  - rewrite list_lookup_alter_eq. by destruct (hp !! l).
  - by rewrite list_lookup_alter_ne.
Qed.

Lemma handles_owned_do_op o c : handles_owned c → handles_owned (do_op o c).
Proof.
  intros (Hval & Hown & Hiss). destruct o as [| h |]; simpl.
  - unfold acquire, acquire_locked.
    destruct (stop (c_pool c)).
    { split_and!; try done. intros l Hl. simpl in *.
      apply elem_of_cons in Hl as [[=] | Hl]. by apply Hiss. }
    destruct (negb (wait_pred (c_pool c))); [done |].
    unfold claim.
    pose proof (scan_spec (c_heap c) (resources (c_pool c)) 0) as Hscan.
    destruct (scan (c_heap c) (resources (c_pool c)) 0) as [i | i l0 |].
    + destruct Hscan as (j & -> & Hj & _).
      pose proof (lookup_lt_Some _ _ _ Hj) as Hlt.
      destruct (fn_new (c_pool c) (calls (c_pool c))) as [v |]; [| done].
      split_and!; simpl.
      * intros k l Hk. rewrite length_app. simpl.
        apply list_lookup_insert_Some in Hk as [(-> & [= <-] & _) | [_ Hk]].
        -- lia.
        -- specialize (Hval _ _ Hk). lia.
      * intros k l Hk. simpl in *.
        apply list_lookup_insert_Some in Hk as [(-> & [= <-] & _) | [_ Hk]].
        -- by rewrite lookup_app_r, Nat.sub_diag.
        -- rewrite lookup_app_l by (by apply (Hval k)). by apply (Hown k).
      * intros l Hl. simpl in *.
        apply elem_of_cons in Hl as [[= ->] | Hl].
        -- exists j. by apply list_lookup_insert_eq.
        -- destruct (Hiss l Hl) as [k Hk]. exists k.
           rewrite list_lookup_insert_ne; [done |]. intros ->. congruence.
    + destruct Hscan as (j & -> & Hj & _).
      split_and!; simpl.
      * intros k l Hk. rewrite length_alter. by apply (Hval k).
      * intros k l Hk. simpl. rewrite pool_alter_flag. by apply (Hown k).
      * intros l Hl. simpl in *.
        apply elem_of_cons in Hl as [[= ->] | Hl]; [eauto | by apply Hiss].
    + split_and!; simpl; try done. intros l Hl. simpl in *.
      apply elem_of_cons in Hl as [[=] | Hl]. by apply Hiss.
  - unfold release. destruct h as [l0 |]; [| done].
    destruct (c_heap c !! l0) as [r |]; [| done].
    destruct (inUse r); [| done].
    split_and!; simpl.
    + intros k l Hk. rewrite length_alter. by apply (Hval k).
    + intros k l Hk. simpl. rewrite pool_alter_flag. by apply (Hown k).
    + done.
  - done.
Qed.

Lemma handles_owned_run os c : handles_owned c → handles_owned (run os c).
Proof.
  revert c. induction os as [| o os IH]; intros c Hc; [done |].
  simpl. by apply IH, handles_owned_do_op.
Qed.

(** X10. The back reference is always right: in every state reached from
    construction, whatever handles are released on the pool (handles of
    other pools included), each object in a slot, and each non-null handle
    [acquire] has returned, names this pool as its owner. *)
Theorem handles_name_their_pool (hp : heap) self size_ f os c :
  c = run os (fresh hp self size_ f) →
  this (c_pool c) = self ∧
  slots_owned (c_heap c) (c_pool c) ∧
  ∀ l, Some l ∈ c_issued c → pool <$> c_heap c !! l = Some self.
Proof.
  intros ->.
  assert (handles_owned (fresh hp self size_ f)) as H0.
  { split_and!; simpl.
    - intros i l Hi. apply lookup_replicate in Hi as [? _]. done.
    - intros i l Hi. apply lookup_replicate in Hi as [? _]. done.
    - intros l Hl. simpl in Hl. by apply elem_of_nil in Hl. }
  destruct (handles_owned_run os _ H0) as (_ & Hown & Hiss).
  pose proof (pool_members_fixed_this os (fresh hp self size_ f)) as Ht.
  split; [done |]. split; [done |].
  intros l Hl. destruct (Hiss l Hl) as [i Hi].
  rewrite (Hown i l Hi). by rewrite Ht.
Qed.

(** ** Calls in a row on a pool with resources *)

Lemma claim_threw (hp : heap) p hp' p' :
  claim hp p = (Threw, hp', p') → fn_new p (calls p) = None.
Proof.
  unfold claim. destruct (scan hp (resources p) 0); [| done | done].
  by destruct (fn_new p (calls p)).
Qed.

(** One call that finds a resource, under the invariant. *)
Lemma acquire_step_returns (hp : heap) p :
  pool_inv hp p → stop p = false → 0 < haveResources p →
  is_Some (fn_new p (calls p)) →
  ∃ l hp1 p1,
    acquire hp p = (Returned (Some l), hp1, p1) ∧
    acquire_locked hp p = (Returned (Some l), hp1, p1) ∧
    pool_inv hp1 p1 ∧ stop p1 = false ∧ fn_new p1 = fn_new p ∧
    haveResources p1 = haveResources p - 1 ∧
    in_use hp (Some l) = false ∧ in_use hp1 (Some l) = true ∧
    (∀ h, in_use hp h = true → in_use hp1 h = true).
Proof.
  intros Hinv Hs Hpos [v Hv].
  rewrite acquire_running, acquire_locked_running by done.
  destruct (claim hp p) as [[r hp1] p1] eqn:Hc.
  destruct (pool_inv_claim _ _ _ _ _ Hinv Hpos Hc) as (_ & _ & Hnn & Hnb & _).
  destruct r as [[l |] | |]; [| done | done |].
  - destruct (claim_returns _ _ _ _ _ Hinv Hpos Hc) as (Hinv1 & Hhr & Hs1 & _).
    destruct (claim_flags _ _ _ _ _ Hc) as [Hnew Hold].
    destruct (Hnew l eq_refl) as [Hb Ha].
    pose proof (claim_members hp p) as (_ & Hf & _). rewrite Hc in Hf.
    exists l, hp1, p1. split_and!; try done; [congruence |].
    intros [l' |] Hl'; [by apply Hold | done].
  - apply claim_threw in Hc. congruence.
Qed.

Lemma acquire_streak k c :
  pool_inv (c_heap c) (c_pool c) → stop (c_pool c) = false →
  (∀ n, is_Some (fn_new (c_pool c) n)) →
  Z.of_nat k <= haveResources (c_pool c) →
  pool_inv (c_heap (run (replicate k OpAcquire) c))
           (c_pool (run (replicate k OpAcquire) c)) ∧
  stop (c_pool (run (replicate k OpAcquire) c)) = false ∧
  haveResources (c_pool (run (replicate k OpAcquire) c))
  = haveResources (c_pool c) - Z.of_nat k ∧
  (∀ h, in_use (c_heap c) h = true →
        in_use (c_heap (run (replicate k OpAcquire) c)) h = true) ∧
  ∃ hs, c_issued (run (replicate k OpAcquire) c) = hs ++ c_issued c ∧
        length hs = k ∧ NoDup hs ∧
        ∀ h, h ∈ hs →
             is_Some h ∧ in_use (c_heap c) h = false ∧
             in_use (c_heap (run (replicate k OpAcquire) c)) h = true.
Proof.
  revert c. induction k as [| k IH]; intros c Hinv Hs Htot Hk.
  - simpl. split_and!; try done; [lia |]. exists [].
    split_and!; try done; [apply NoDup_nil_2 |]. by intros h ?%elem_of_nil.
  - destruct (acquire_step_returns _ _ Hinv Hs) as
      (l & hp1 & p1 & Ha & _ & Hinv1 & Hs1 & Hf1 & Hhr1 & Hb & Haft & Hmono);
      [lia | apply Htot |].
    assert (do_op OpAcquire c = mk_config hp1 p1 (Some l :: c_issued c)) as E
      by (simpl; by rewrite Ha).
    simpl replicate. cbn [run]. rewrite E.
    destruct (IH (mk_config hp1 p1 (Some l :: c_issued c)))
      as (Hinv' & Hs' & Hhr' & Hmono' & hs & Hiss & Hlen & Hnd & Hhs);
      cbn [c_heap c_pool c_issued]; [done | done | by rewrite Hf1 | lia |].
    cbn [c_heap c_pool c_issued] in *.
    split_and!; try done; [lia | by auto |].
    exists (hs ++ [Some l]). split_and!.
    + by rewrite Hiss, <- app_assoc.
    + rewrite length_app. simpl. lia.
    + apply list.NoDup_app. split_and!; [done | | apply NoDup_singleton].
      intros h Hh ->%list_elem_of_singleton.
      destruct (Hhs _ Hh) as (_ & Hfalse & _). congruence.
    + intros h [Hh | ->%list_elem_of_singleton]%elem_of_app.
      * destruct (Hhs _ Hh) as (Hsome & Hfalse & Htrue).
        split_and!; try done.
        destruct (in_use (c_heap c) h) eqn:Hu; [| done].
        apply Hmono in Hu. congruence.
      * split_and!; [by eexists | done | by apply Hmono'].
Qed.

Lemma instances_full rs :
  (∀ j, rs !! j ≠ Some None) → instances rs = length rs.
Proof.
  induction rs as [| s rs IH]; intros H; [done |].
  rewrite instances_cons. simpl. rewrite IH.
  - destruct s; [done |]. by destruct (H 0%nat).
  - intros j. apply (H (S j)).
Qed.

(** X11. Exhaustion.  On a pool just constructed with a factory that never
    raises, as many calls of [acquire] as the capacity all return: the
    handles are non-null, pairwise different and all in use, the factory has
    been invoked exactly once per slot, and no resource is left available.
    One more [acquire] is suspended and changes nothing. *)
Theorem acquire_until_exhausted (hp : heap) self size_ f c :
  0 <= size_ <= INT_MAX →
  (∀ n, is_Some (f n)) →
  c = run (replicate (Z.to_nat (Z.max size_ 1)) OpAcquire)
          (fresh hp self size_ f) →
  resourcesAvailable (c_pool c) = 0 ∧
  length (c_issued c) = Z.to_nat (Z.max size_ 1) ∧
  NoDup (c_issued c) ∧
  (∀ h, h ∈ c_issued c → is_Some h ∧ in_use (c_heap c) h = true) ∧
  calls (c_pool c) = Z.to_nat (Z.max size_ 1) ∧
  acquire (c_heap c) (c_pool c) = (Blocked, c_heap c, c_pool c) ∧
  do_op OpAcquire c = c.
Proof.
  intros Hr Htot ->. unfold INT_MAX in Hr.
  set (N := Z.to_nat (Z.max size_ 1)).
  assert (haveResources (new_pool self size_ f) = Z.of_nat N) as H0.
  { simpl. rewrite to_int_id; unfold INT_MAX; lia. }
  destruct (acquire_streak N (fresh hp self size_ f))
    as (Hinv & Hs & Hhr & _ & hs & Hiss & Hlen & Hnd & Hhs).
  { apply pool_inv_new. unfold INT_MAX. lia. }
  { done. }
  { done. }
  { simpl c_pool. rewrite H0. lia. }
  set (c := run (replicate N OpAcquire) (fresh hp self size_ f)) in *.
  simpl c_pool in Hhr. simpl c_issued in Hiss. rewrite app_nil_r in Hiss.
  assert (haveResources (c_pool c) = 0) as Hz by lia.
  assert (acquire (c_heap c) (c_pool c) = (Blocked, c_heap c, c_pool c)) as Hb
    by (apply acquire_exhausted; [done | lia]).
  rewrite Hiss. split_and!; try done.
  - intros h Hh. destruct (Hhs h Hh) as (? & _ & ?). done.
  - destruct (run_keeps (replicate N OpAcquire) (fresh hp self size_ f)
                (pool_wf_new _ _ _ _)) as [[_ Hcon] (Hf & Hl & _)].
    fold c in Hcon, Hf, Hl. simpl in Hf, Hl. rewrite Hf in Hcon.
    rewrite (constructed_total f _ Htot) in Hcon. rewrite Hcon.
    rewrite instances_full, Hl, length_replicate; [done |].
    intros j Hj.
    assert (free_count (c_heap c) (resources (c_pool c)) = 0) as Hfc
      by (rewrite <- (inv_count _ _ Hinv); done).
    by pose proof (free_count_zero_inv _ _ _ _ Hfc Hj).
  - simpl. rewrite Hb. by destruct c.
Qed.

(** ** One thread calling [acquire] in a loop *)

Lemma acts_app l1 l2 s : acts (l1 ++ l2) s = acts l2 (acts l1 s).
Proof. revert s. induction l1 as [| a l1 IH]; intros s; [done |]. apply IH. Qed.

Lemma calls_in_a_row_snoc k n :
  calls_in_a_row (S k) n
  = calls_in_a_row k n ++ [Call; Run (n + k)%nat; Run (n + k)%nat].
Proof.
  revert n. induction k as [| k IH]; intros n.
  - simpl. by rewrite Nat.add_0_r.
  - change (calls_in_a_row (S (S k)) n)
      with (Call :: Run n :: Run n :: calls_in_a_row (S k) (S n)).
    rewrite IH. simpl. by replace (S (n + k)) with (n + S k)%nat by lia.
Qed.

Lemma insert_snoc {A} (l : list A) x y : <[length l:=x]> (l ++ [y]) = l ++ [x].
Proof.
  replace (length l) with (length l + 0)%nat by lia. by rewrite insert_app_r.
Qed.

Lemma lookup_snoc {A} (l : list A) x : (l ++ [x]) !! length l = Some x.
Proof. by rewrite lookup_app_r, Nat.sub_diag. Qed.

Lemma wake_finished (hs : list handle) :
  wake <$> (Finished <$> hs) = Finished <$> hs.
Proof.
  induction hs as [| h hs IH]; [done |]. rewrite !fmap_cons. by rewrite IH.
Qed.

(** A call that no other thread interleaves with: the thread arrives, passes
    the first guarded block and runs the second. *)
Lemma call_runs s r hp1 p1 :
  stop (s_pool s) = false →
  acquire_locked (s_heap s) (s_pool s) = (r, hp1, p1) →
  acts [Call; Run (length (s_threads s)); Run (length (s_threads s))] s
  = mk_system hp1 p1 (s_threads s ++ [after_locked r]).
Proof.
  intros Hs Ha. cbn [acts act]. unfold run_thread at 2.
  cbn [s_threads s_heap s_pool]. rewrite lookup_snoc, Hs, insert_snoc.
  unfold run_thread. cbn [s_threads s_heap s_pool].
  by rewrite lookup_snoc, Ha, insert_snoc.
Qed.

Lemma calls_in_a_row_return k s :
  pool_inv (s_heap s) (s_pool s) → stop (s_pool s) = false →
  (∀ n, is_Some (fn_new (s_pool s) n)) →
  Z.of_nat k <= haveResources (s_pool s) →
  pool_inv (s_heap (acts (calls_in_a_row k (length (s_threads s))) s))
           (s_pool (acts (calls_in_a_row k (length (s_threads s))) s)) ∧
  stop (s_pool (acts (calls_in_a_row k (length (s_threads s))) s)) = false ∧
  haveResources (s_pool (acts (calls_in_a_row k (length (s_threads s))) s))
  = haveResources (s_pool s) - Z.of_nat k ∧
  (∀ h, in_use (s_heap s) h = true →
        in_use (s_heap (acts (calls_in_a_row k (length (s_threads s))) s)) h
        = true) ∧
  ∃ hs,
    s_threads (acts (calls_in_a_row k (length (s_threads s))) s)
    = s_threads s ++ (Finished <$> hs) ∧
    length hs = k ∧ NoDup hs ∧
    ∀ h, h ∈ hs → is_Some h ∧ in_use (s_heap s) h = false.
Proof.
  revert s. induction k as [| k IH]; intros s Hinv Hs Htot Hk.
  - simpl. split_and!; try done; [lia |]. exists [].
    split_and!; try done.
    + by rewrite app_nil_r.
    + apply NoDup_nil_2.
    + by intros h ?%elem_of_nil.
  - destruct (acquire_step_returns _ _ Hinv Hs) as
      (l & hp1 & p1 & _ & Ha & Hinv1 & Hs1 & Hf1 & Hhr1 & Hb & Haft & Hmono);
      [lia | apply Htot |].
    change (calls_in_a_row (S k) (length (s_threads s)))
      with ([Call; Run (length (s_threads s)); Run (length (s_threads s))]
            ++ calls_in_a_row k (S (length (s_threads s)))).
    rewrite acts_app, (call_runs _ _ _ _ Hs Ha). cbn [after_locked].
    pose proof (IH (mk_system hp1 p1 (s_threads s ++ [Finished (Some l)])))
      as IH1.
    cbn [s_heap s_pool s_threads] in IH1.
    rewrite length_app in IH1. simpl length in IH1.
    rewrite Nat.add_1_r in IH1.
    destruct IH1 as (Hinv' & Hs' & Hhr' & Hmono' & hs & Hth & Hlen & Hnd & Hhs);
      [done | done | by rewrite Hf1 | lia |].
    split_and!; try done; [lia | by auto |].
    exists (Some l :: hs). split_and!.
    + by rewrite Hth, <- app_assoc.
    + simpl. lia.
    + apply NoDup_cons_2; [| done]. intros Hin.
      destruct (Hhs _ Hin) as (_ & Hfalse). congruence.
    + intros h [-> | Hh]%elem_of_cons.
      * split; [by eexists | done].
      * destruct (Hhs _ Hh) as (Hsome & Hfalse). split; [done |].
        destruct (in_use (s_heap s) h) eqn:Hu; [| done].
        apply Hmono in Hu. congruence.
Qed.

(** After [shutdown], the one waiting thread returns the null handle. *)
Lemma shutdown_releases_last_waiter (hp : heap) p (hs : list handle) :
  acts [ShutdownLock; ShutdownNotify; Run (length hs)]
       (mk_system hp p ((Finished <$> hs) ++ [Waiting]))
  = mk_system hp (shutdown p) ((Finished <$> hs) ++ [Finished None]).
Proof.
  cbn [acts act s_heap s_pool s_threads].
  rewrite fmap_app, wake_finished.
  change (wake <$> [Waiting]) with [Ready].
  unfold run_thread. cbn [s_heap s_pool s_threads].
  replace (length hs) with (length (Finished <$> hs)) by apply length_fmap.
  rewrite lookup_snoc, acquire_locked_stopped by done.
  cbn [after_locked]. by rewrite insert_snoc.
Qed.

(** X12. The shutdown test of the repository, for any capacity N.  One
    thread calls [acquire] N+1 times in a row on a new pool whose factory
    never raises: the first N calls return non-null, pairwise different
    handles, after which no resource is available (the main thread's polling
    loop ends) and the last call is suspended.  When the main thread then
    calls [shutdown], the suspended call returns the null handle at its next
    step, so every call has returned and the thread can be joined. *)
Theorem shutdown_test_terminates (hp : heap) self size_ f s1 s2 :
  0 <= size_ <= INT_MAX →
  (∀ n, is_Some (f n)) →
  s1 = acts (calls_in_a_row (S (Z.to_nat (Z.max size_ 1))) 0)
            (mk_system hp (new_pool self size_ f) []) →
  s2 = acts [ShutdownLock; ShutdownNotify; Run (Z.to_nat (Z.max size_ 1))] s1 →
  resourcesAvailable (s_pool s1) = 0 ∧ stop (s_pool s1) = false ∧
  s_heap s2 = s_heap s1 ∧ s_pool s2 = shutdown (s_pool s1) ∧
  ∃ hs,
    length hs = Z.to_nat (Z.max size_ 1) ∧ NoDup hs ∧
    (∀ h, h ∈ hs → is_Some h) ∧
    s_threads s1 = (Finished <$> hs) ++ [Waiting] ∧
    s_threads s2 = (Finished <$> hs) ++ [Finished None].
Proof.
  intros Hr Htot -> ->. unfold INT_MAX in Hr.
  set (N := Z.to_nat (Z.max size_ 1)).
  set (s0 := mk_system hp (new_pool self size_ f) []).
  assert (haveResources (new_pool self size_ f) = Z.of_nat N) as H0.
  { simpl. rewrite to_int_id; unfold INT_MAX; lia. }
  destruct (calls_in_a_row_return N s0)
    as (Hinv & Hs & Hhr & _ & hs & Hth & Hlen & Hnd & Hhs).
  { apply pool_inv_new. unfold INT_MAX. lia. }
  { done. }
  { done. }
  { unfold s0. cbn [s_pool]. rewrite H0. lia. }
  rewrite calls_in_a_row_snoc, acts_app. simpl length in *.
  set (sN := acts (calls_in_a_row N 0) s0) in *.
  unfold s0 in Hhr, Hth. cbn [s_pool s_threads] in Hhr, Hth.
  rewrite app_nil_l in Hth.
  assert (length (s_threads sN) = N) as HlenN
    by (by rewrite Hth, length_fmap).
  assert (acquire_locked (s_heap sN) (s_pool sN) = (Blocked, s_heap sN, s_pool sN))
    as Hb by (apply acquire_locked_exhausted; [done | lia]).
  replace (0 + N)%nat with (length (s_threads sN)) by lia.
  rewrite (call_runs _ _ _ _ Hs Hb). cbn [after_locked]. rewrite Hth.
  fold N.
  assert (acts [ShutdownLock; ShutdownNotify; Run N]
               (mk_system (s_heap sN) (s_pool sN)
                          ((Finished <$> hs) ++ [Waiting]))
          = mk_system (s_heap sN) (shutdown (s_pool sN))
                      ((Finished <$> hs) ++ [Finished None])) as Efin
    by (rewrite <- Hlen; apply shutdown_releases_last_waiter).
  rewrite Efin.
  cbn [s_heap s_pool s_threads]. unfold resourcesAvailable.
  split_and!; try done; try lia.
  exists hs. split_and!; try done.
  intros h Hh. by destruct (Hhs h Hh).
Qed.

(** ** Handles that are no slot of the pool, and a counter without a slot *)

(** X13. [release] does not look at the owner of a handle.  Given a handle
    that is in use and is no slot of the pool, it clears the flag through the
    handle, raises the pool's counter and reaches the notification, while
    the pool's slots and the number of its free slots stay as they were; so
    a pool that satisfied the invariant (with a counter below [INT_MAX]) has
    afterwards a counter one above the number of its free slots. *)
Theorem release_ignores_owner (hp : heap) p l :
  pool_inv hp p →
  (∀ i, resources p !! i ≠ Some (Some l)) →
  in_use hp (Some l) = true →
  ∃ hp' p',
    release hp p (Some l) = (true, hp', p') ∧
    in_use hp' (Some l) = false ∧
    resources p' = resources p ∧
    free_count hp' (resources p') = free_count hp (resources p) ∧
    haveResources p' = to_int (haveResources p + 1) ∧
    (haveResources p < INT_MAX →
     haveResources p' = free_count hp' (resources p') + 1 ∧
     ¬ pool_inv hp' p').
Proof.
  intros Hinv Hno (r & Hl & Hu)%in_use_true.
  rewrite (release_in_use _ _ _ _ Hl Hu).
  eexists _, _. split; [done |]. simpl.
  assert (free_count (alter (set_inUse false) l hp) (resources p)
          = free_count hp (resources p)) as Hfc.
  { apply free_count_ext. intros j [l' |] Hj; [| done]. simpl.
    apply idle_alter_ne. intros ->. by apply (Hno j). }
  pose proof (inv_count _ _ Hinv) as Hcnt.
  pose proof (free_count_bounds hp (resources p)) as Hb.
  split_and!; try done.
  - by apply (in_use_alter_eq _ _ _ r).
  - intros Hlt.
    assert (to_int (haveResources p + 1) = haveResources p + 1) as Hto
      by (apply to_int_id; unfold INT_MAX in *; lia).
    rewrite Hto, Hfc. split; [lia |].
    intros Hinv'. pose proof (inv_count _ _ Hinv') as Hcnt'.
    simpl in Hcnt'. lia.
Qed.

(** X14. A positive counter without a free slot.  When the pool is not
    stopped and its counter is positive but every slot holds an object in
    use, the scan of [acquire] runs to the end: the call returns the null
    handle although [shutdown] was never called, decrements the counter all
    the same and leaves store and slots untouched. *)
Theorem acquire_without_free_slot (hp : heap) p :
  stop p = false →
  0 < haveResources p <= INT_MAX →
  (∀ j s, resources p !! j = Some s → slot_free hp s = false) →
  acquire hp p
  = (Returned None, hp, set_haveResources (haveResources p - 1) p).
Proof.
  intros Hs [Hpos Hmax] Hfull.
  rewrite acquire_running by done. unfold claim.
  pose proof (scan_spec hp (resources p) 0) as Hscan.
  destruct (scan hp (resources p) 0) as [i | i l |].
  - destruct Hscan as (j & _ & Hj & Hfree & _).
    specialize (Hfull _ _ Hj). congruence.
  - destruct Hscan as (j & _ & Hj & Hfree & _).
    specialize (Hfull _ _ Hj). congruence.
  - by rewrite to_int_id by (unfold INT_MAX in *; lia).
Qed.

(** ** The invariant under interleavings *)

Lemma pool_inv_acquire_locked (hp : heap) p r hp' p' :
  pool_inv hp p →
  acquire_locked hp p = (r, hp', p') →
  pool_inv hp' p' ∧ size p' = size p ∧
  (∀ i l, resources p !! i = Some (Some l) → resources p' !! i = Some (Some l)).
Proof.
  intros Hinv. destruct (stop p) eqn:Hs.
  - rewrite acquire_locked_stopped by done. by intros [= <- <- <-].
  - destruct (Z_lt_le_dec 0 (haveResources p)) as [Hpos | Hle].
    + rewrite acquire_locked_running by done. intros Hc.
      destruct (pool_inv_claim _ _ _ _ _ Hinv Hpos Hc) as (? & ? & _).
      pose proof (claim_size hp p) as Hsz. rewrite Hc in Hsz. done.
    + rewrite acquire_locked_exhausted by done. by intros [= <- <- <-].
Qed.

Lemma pool_inv_act a s :
  pool_inv (s_heap s) (s_pool s) →
  slot_releases [a] s →
  pool_inv (s_heap (act a s)) (s_pool (act a s)) ∧
  size (s_pool (act a s)) = size (s_pool s) ∧
  (∀ i l, resources (s_pool s) !! i = Some (Some l) →
          resources (s_pool (act a s)) !! i = Some (Some l)).
Proof.
  intros Hinv [Hown _]. destruct a as [| t | t | h w | |]; simpl; try done.
  - unfold run_thread.
    destruct (s_threads s !! t) as [[| | | h |] |]; try done.
    destruct (acquire_locked (s_heap s) (s_pool s)) as [[r hp] p] eqn:Ha.
    by apply (pool_inv_acquire_locked _ _ _ _ _ Hinv Ha).
  - destruct (release (s_heap s) (s_pool s) h) as [[n hp] p] eqn:Hr.
    assert (∀ l, h = Some l → ∃ i, resources (s_pool s) !! i = Some (Some l))
      as Hslot by (by intros l ->).
    destruct (pool_inv_release _ _ _ _ _ _ Hinv Hslot Hr) as [Hinv' Hrs].
    pose proof (release_size (s_heap s) (s_pool s) h) as Hsz.
    rewrite Hr in Hsz. simpl in *. split_and!; try done.
    intros i l. by rewrite Hrs.
  - split_and!; try done. destruct Hinv. by split.
Qed.

(** X15. The capacity bound under interleaving.  From a state that
    satisfies the invariant, through any interleaving of steps of acquiring
    threads, new calls, spurious wake-ups, [shutdown] and releases of the
    null handle or of handles that are slots of the pool, the invariant
    holds again: the counter equals the number of free slots and lies
    between 0 and the capacity, which does not change. *)
Theorem counter_bounded_under_interleaving l s :
  pool_inv (s_heap s) (s_pool s) →
  slot_releases l s →
  pool_inv (s_heap (acts l s)) (s_pool (acts l s)) ∧
  size (s_pool (acts l s)) = size (s_pool s) ∧
  0 <= resourcesAvailable (s_pool (acts l s)) <= size (s_pool s).
Proof.
  intros Hinv Hown.
  assert (pool_inv (s_heap (acts l s)) (s_pool (acts l s)) ∧
          size (s_pool (acts l s)) = size (s_pool s)) as [Hinv' Hsz].
  { revert s Hinv Hown. induction l as [| a l IH]; intros s Hinv Hown.
    - done.
    - destruct Hown as [Ha Hl].
      destruct (pool_inv_act a s Hinv) as (Hinv1 & Hsz1 & _); [by split |].
      destruct (IH _ Hinv1 Hl) as [Hinv2 Hsz2]. simpl.
      split; [done | congruence]. }
  split; [done |]. split; [done |].
  unfold resourcesAvailable.
  rewrite (inv_count _ _ Hinv'), <- Hsz, <- (inv_size _ _ Hinv').
  apply free_count_bounds.
Qed.

(** A pool with a single slot that holds an object of the store. *)
Lemma pool_inv_one_slot (hp : heap) self f n l r st :
  hp !! l = Some r →
  pool_inv hp (mk_pool self [Some l] 1 f n (b2z (negb (inUse r))) st).
Proof.
  intros Hl. split; simpl.
  - done.
  - unfold INT_MAX. lia.
  - intros [| i] l' Hi; simpl in Hi; [| by destruct i].
    injection Hi as <-. by apply lookup_lt_Some in Hl.
  - intros [| i] [| j] l' Hi Hj; simpl in *; try done; by destruct i || destruct j.
  - rewrite free_count_cons, free_count_nil. simpl. unfold idle.
    rewrite Hl. lia.
Qed.

End Model.

(** ** The claims at concrete inputs *)

(** C7 as stated fails: with capacity 1 and a factory that raises, two calls
    of [acquire] invoke the factory twice. *)
Lemma factory_invoked_more_than_capacity :
  ¬ (Z.of_nat (calls (c_pool (run [OpAcquire; OpAcquire]
                                  (fresh (T:=unit) [] 0 1 (λ _, None)))))
     <= size (c_pool (run [OpAcquire; OpAcquire]
                          (fresh (T:=unit) [] 0 1 (λ _, None))))).
Proof. vm_compute. intros H. by apply H. Qed.

(** C4 on the code: pools P (identity 1) and Q (identity 2), capacity 1
    each, in an empty store.  The handle Q's [acquire] returns (location 0,
    owned by pool 2) is no slot of P, yet [release] on P with it reaches the
    notification, raises P's counter from 1 to 2, above P's capacity, and
    clears the flag of Q's object.  P then hands out its only slot and, with
    the counter still positive, its next [acquire] returns the null handle
    although P was never shut down. *)
Lemma release_foreign_handle_counts :
  acquire (T:=unit) [] (new_pool 2 1 (λ _, Some tt))
  = (Returned (Some 0%nat), [mk_resource 2 tt true],
     mk_pool 2 [Some 0%nat] 1 (λ _, Some tt) 1 0 false) ∧
  resources (new_pool (T:=unit) 1 1 (λ _, Some tt)) = [None] ∧
  resourcesAvailable (new_pool (T:=unit) 1 1 (λ _, Some tt)) = 1 ∧
  release [mk_resource 2 tt true] (new_pool 1 1 (λ _, Some tt)) (Some 0%nat)
  = (true, [mk_resource 2 tt false],
     mk_pool 1 [None] 1 (λ _, Some tt) 0 2 false) ∧
  acquire [mk_resource 2 tt false] (mk_pool 1 [None] 1 (λ _, Some tt) 0 2 false)
  = (Returned (Some 1%nat), [mk_resource 2 tt false; mk_resource 1 tt true],
     mk_pool 1 [Some 1%nat] 1 (λ _, Some tt) 1 1 false) ∧
  acquire [mk_resource 2 tt false; mk_resource 1 tt true]
          (mk_pool 1 [Some 1%nat] 1 (λ _, Some tt) 1 1 false)
  = (Returned None, [mk_resource 2 tt false; mk_resource 1 tt true],
     mk_pool 1 [Some 1%nat] 1 (λ _, Some tt) 1 0 false).
Proof. repeat split; vm_compute; reflexivity. Qed.

(** *** Instances of the theorems

    The payload type is [unit]; [λ _, Some tt] is a factory that always
    returns, [λ _, None] one that always raises. *)

Lemma new_pool_clamped_and_lazy_witness :
  0 <= 0 <= INT_MAX ∧
  size (new_pool (T:=unit) 7 0 (λ _, Some tt)) = 1 ∧
  Z.of_nat (length (resources (new_pool (T:=unit) 7 0 (λ _, Some tt)))) = 1 ∧
  resourcesAvailable (new_pool (T:=unit) 7 0 (λ _, Some tt)) = 1 ∧
  stop (new_pool (T:=unit) 7 0 (λ _, Some tt)) = false ∧
  calls (new_pool (T:=unit) 7 0 (λ _, Some tt)) = 0%nat.
Proof.
  assert (0 <= 0 <= INT_MAX) as Hr by (unfold INT_MAX; lia).
  split; [exact Hr |].
  destruct (new_pool_clamped_and_lazy (T:=unit) [] 7 0 (λ _, Some tt) Hr)
    as (_ & _ & H0 & Hlen & _ & Hav & Hst & Hc & _).
  split; [exact (H0 eq_refl) |]. split; [exact Hlen |]. split; [exact Hav |].
  split; [exact Hst | exact Hc].
Defined.

Lemma available_within_capacity_witness :
  0 <= 2 <= INT_MAX ∧
  own_calls [OpAcquire; OpAcquire; OpAcquire; OpRelease (Some 0%nat);
             OpRelease (Some 0%nat); OpShutdown; OpAcquire; OpRelease None]
            (fresh (T:=unit) [] 0 2 (λ _, Some tt)) = true ∧
  Forall (λ c, size (c_pool c) = Z.max 2 1 ∧
               0 <= resourcesAvailable (c_pool c) <= size (c_pool c))
         (visited [OpAcquire; OpAcquire; OpAcquire; OpRelease (Some 0%nat);
                   OpRelease (Some 0%nat); OpShutdown; OpAcquire;
                   OpRelease None]
                  (fresh (T:=unit) [] 0 2 (λ _, Some tt))).
Proof.
  assert (0 <= 2 <= INT_MAX) as Hr by (unfold INT_MAX; lia).
  split; [exact Hr |]. split; [vm_compute; reflexivity |].
  apply (available_within_capacity (T:=unit) [] 0 2 (λ _, Some tt)).
  - exact Hr.
  - vm_compute; reflexivity.
Defined.

Lemma available_counts_free_slots_witness :
  0 <= 2 <= INT_MAX ∧
  own_calls [OpAcquire; OpRelease (Some 0%nat); OpAcquire; OpAcquire]
            (fresh (T:=unit) [] 0 2 (λ _, Some tt)) = true ∧
  haveResources
    (c_pool (run [OpAcquire; OpRelease (Some 0%nat); OpAcquire; OpAcquire]
                 (fresh (T:=unit) [] 0 2 (λ _, Some tt))))
  = free_count
      (c_heap (run [OpAcquire; OpRelease (Some 0%nat); OpAcquire; OpAcquire]
                   (fresh (T:=unit) [] 0 2 (λ _, Some tt))))
      (resources
         (c_pool (run [OpAcquire; OpRelease (Some 0%nat); OpAcquire; OpAcquire]
                      (fresh (T:=unit) [] 0 2 (λ _, Some tt))))).
Proof.
  assert (0 <= 2 <= INT_MAX) as Hr by (unfold INT_MAX; lia).
  split; [exact Hr |]. split; [vm_compute; reflexivity |].
  apply (available_counts_free_slots (T:=unit) [] 0 2 (λ _, Some tt)
           [OpAcquire; OpRelease (Some 0%nat); OpAcquire; OpAcquire]).
  - exact Hr.
  - vm_compute; reflexivity.
  - reflexivity.
Defined.

Lemma acquire_claims_first_free_witness :
  stop (new_pool (T:=unit) 0 2 (λ _, Some tt)) = false ∧
  0 < haveResources (new_pool (T:=unit) 0 2 (λ _, Some tt)) <= INT_MAX ∧
  first_free (T:=unit) [] (resources (new_pool (T:=unit) 0 2 (λ _, Some tt))) 0 None ∧
  ∃ l hp' p',
    acquire [] (new_pool (T:=unit) 0 2 (λ _, Some tt))
    = (Returned (Some l), hp', p') ∧
    resources p' !! 0%nat = Some (Some l) ∧
    inUse <$> hp' !! l = Some true ∧
    haveResources p'
    = haveResources (new_pool (T:=unit) 0 2 (λ _, Some tt)) - 1.
Proof.
  assert (0 < haveResources (new_pool (T:=unit) 0 2 (λ _, Some tt)) <= INT_MAX)
    as Hr by (vm_compute; split; [reflexivity | discriminate]).
  assert (first_free (T:=unit) [] (resources (new_pool (T:=unit) 0 2 (λ _, Some tt)))
            0 None) as Hf by (apply first_free_here; reflexivity).
  split; [reflexivity |]. split; [exact Hr |]. split; [exact Hf |].
  destruct (acquire_claims_first_free (T:=unit) []
              (new_pool 0 2 (λ _, Some tt)) 0 None eq_refl Hr Hf)
    as (l & hp' & p' & Ha & Hs & _ & Hu & _ & Hc & _).
  - intros _. exists tt. reflexivity.
  - exists l, hp', p'.
    split; [exact Ha |]. split; [exact Hs |]. split; [exact Hu | exact Hc].
Defined.

Lemma factory_failure_keeps_state_witness :
  stop (new_pool (T:=unit) 0 1 (λ _, None)) = false ∧
  0 < haveResources (new_pool (T:=unit) 0 1 (λ _, None)) ∧
  first_free (T:=unit) [] (resources (new_pool (T:=unit) 0 1 (λ _, None))) 0 None ∧
  fn_new (new_pool (T:=unit) 0 1 (λ _, None))
         (calls (new_pool (T:=unit) 0 1 (λ _, None))) = None ∧
  ∃ p',
    acquire [] (new_pool (T:=unit) 0 1 (λ _, None)) = (Threw, [], p') ∧
    resources p' = resources (new_pool (T:=unit) 0 1 (λ _, None)) ∧
    haveResources p' = haveResources (new_pool (T:=unit) 0 1 (λ _, None)).
Proof.
  assert (first_free (T:=unit) [] (resources (new_pool (T:=unit) 0 1 (λ _, None)))
            0 None) as Hf by (apply first_free_here; reflexivity).
  split; [reflexivity |]. split; [vm_compute; reflexivity |].
  split; [exact Hf |]. split; [reflexivity |].
  destruct (factory_failure_keeps_state (T:=unit) []
              (new_pool 0 1 (λ _, None)) 0 eq_refl eq_refl Hf eq_refl)
    as (p' & Ha & Hrs & _ & Hh & _).
  exists p'. split; [exact Ha |]. split; [exact Hrs | exact Hh].
Defined.

Lemma release_twice_is_release_once_witness :
  in_use (T:=unit) [mk_resource 0 tt false] (Some 0%nat) = false ∧
  release [mk_resource 0 tt false] (new_pool 0 1 (λ _, Some tt)) (Some 0%nat)
  = (false, [mk_resource 0 tt false], new_pool 0 1 (λ _, Some tt)) ∧
  (Some tt = Some tt →
   resourcesAvailable
     (c_pool (run [OpAcquire; OpRelease (Some 0%nat); OpRelease (Some 0%nat)]
                  (fresh (T:=unit) [] 0 3 (λ _, Some tt)))) = 3).
Proof.
  split; [reflexivity |].
  destruct (release_twice_is_release_once (T:=unit) [mk_resource 0 tt false]
              (new_pool 0 1 (λ _, Some tt)) (Some 0%nat)) as (H1 & _ & H3).
  split; [exact (H1 eq_refl) |].
  intros Hv.
  destruct (H3 [] 0%nat (λ _, Some tt) tt Hv) as (_ & _ & _ & _ & H).
  exact H.
Defined.

Lemma acquire_after_shutdown_returns_null_witness :
  mk_config [] (shutdown (new_pool (T:=unit) 0 1 (λ _, Some tt))) []
  = run [] (do_op OpShutdown (fresh [] 0 1 (λ _, Some tt))) ∧
  mk_system [] (shutdown (new_pool (T:=unit) 0 1 (λ _, Some tt))) [Entry]
  = acts [Call] (act ShutdownLock
                     (mk_system [] (new_pool 0 1 (λ _, Some tt)) [])) ∧
  acquire [] (shutdown (new_pool (T:=unit) 0 1 (λ _, Some tt)))
  = (Returned None, [], shutdown (new_pool 0 1 (λ _, Some tt))).
Proof.
  split; [reflexivity |]. split; [reflexivity |].
  destruct (acquire_after_shutdown_returns_null (T:=unit)
              (fresh [] 0 1 (λ _, Some tt)) []
              (mk_config [] (shutdown (new_pool 0 1 (λ _, Some tt))) [])
              (mk_system [] (new_pool 0 1 (λ _, Some tt)) []) [Call]
              (mk_system [] (shutdown (new_pool 0 1 (λ _, Some tt))) [Entry])
              eq_refl eq_refl) as (_ & H & _).
  exact H.
Defined.

Lemma shutdown_wakes_every_waiter_witness :
  mk_system [] (shutdown (new_pool (T:=unit) 0 1 (λ _, None)))
            [Waiting; Ready; Waiting]
  = act ShutdownLock
        (mk_system [] (new_pool 0 1 (λ _, None)) [Waiting; Ready; Waiting]) ∧
  mk_system [] (shutdown (new_pool (T:=unit) 0 1 (λ _, None)))
            [Ready; Finished None; Ready; Entry]
  = act ShutdownNotify
        (acts [Call; Run 1%nat]
              (mk_system [] (shutdown (new_pool 0 1 (λ _, None)))
                         [Waiting; Ready; Waiting])) ∧
  mk_system [] (shutdown (new_pool (T:=unit) 0 1 (λ _, None)))
            [Finished None; Finished None; Ready; Finished None]
  = acts [Run 3%nat; Run 0%nat]
         (mk_system [] (shutdown (new_pool 0 1 (λ _, None)))
                    [Ready; Finished None; Ready; Entry]) ∧
  ∀ t,
    [Finished None; Finished None; Ready; Finished None] !! t
    ≠ Some (Waiting).
Proof.
  split; [reflexivity |]. split; [reflexivity |]. split; [reflexivity |].
  destruct (shutdown_wakes_every_waiter (T:=unit)
              (mk_system [] (new_pool 0 1 (λ _, None)) [Waiting; Ready; Waiting])
              [Call; Run 1%nat] [Run 3%nat; Run 0%nat]
              (mk_system [] (shutdown (new_pool 0 1 (λ _, None)))
                         [Waiting; Ready; Waiting])
              (mk_system [] (shutdown (new_pool 0 1 (λ _, None)))
                         [Ready; Finished None; Ready; Entry])
              (mk_system [] (shutdown (new_pool 0 1 (λ _, None)))
                         [Finished None; Finished None; Ready; Finished None])
              eq_refl eq_refl eq_refl) as (_ & _ & _ & _ & H & _).
  exact H.
Defined.

Lemma factory_instances_at_most_capacity_witness :
  mk_config [mk_resource 0 tt true]
    (mk_pool 0 [Some 0%nat] 1 (λ k, if (k <? 2)%nat then None else Some tt)
             3 0 false)
    [Some 0%nat]
  = run [OpAcquire; OpAcquire; OpAcquire]
        (fresh (T:=unit) [] 0 1 (λ k, if (k <? 2)%nat then None else Some tt)) ∧
  constructed (λ k, if (k <? 2)%nat then None else Some tt) 3 = 1%nat ∧
  Z.of_nat (constructed (T:=unit)
              (λ k, if (k <? 2)%nat then None else Some tt) 3) <= 1.
Proof.
  split; [vm_compute; reflexivity |]. split; [reflexivity |].
  destruct (factory_instances_at_most_capacity (T:=unit) [] 0 1
              (λ k, if (k <? 2)%nat then None else Some tt)
              [OpAcquire; OpAcquire; OpAcquire]
              (mk_config [mk_resource 0 tt true]
                 (mk_pool 0 [Some 0%nat] 1
                    (λ k, if (k <? 2)%nat then None else Some tt) 3 0 false)
                 [Some 0%nat])) as (_ & _ & H & _).
  - vm_compute; reflexivity.
  - exact H.
Defined.

(** *** Instances of the further properties *)

Lemma acquire_hands_out_exclusively_witness :
  acquire (T:=unit) [] (new_pool 0 1 (λ _, Some tt))
  = (Returned (Some 0%nat), [mk_resource 0 tt true],
     mk_pool 0 [Some 0%nat] 1 (λ _, Some tt) 1 0 false) ∧
  in_use (T:=unit) [] (Some 0%nat) = false ∧
  in_use [mk_resource 0 tt true] (Some 0%nat) = true.
Proof.
  assert (acquire (T:=unit) [] (new_pool 0 1 (λ _, Some tt))
          = (Returned (Some 0%nat), [mk_resource 0 tt true],
             mk_pool 0 [Some 0%nat] 1 (λ _, Some tt) 1 0 false)) as E
    by (vm_compute; reflexivity).
  split; [exact E |].
  exact (proj1 (acquire_hands_out_exclusively _ _ _ _ _ E) 0%nat eq_refl).
Defined.

Lemma acquire_outcome_by_state_witness :
  pool_inv (T:=unit) [] (new_pool 0 1 (λ _, Some tt)) ∧
  ((acquire (T:=unit) [] (new_pool 0 1 (λ _, Some tt))).1.1 = Returned None
   ↔ stop (new_pool (T:=unit) 0 1 (λ _, Some tt)) = true).
Proof.
  assert (pool_inv (T:=unit) [] (new_pool 0 1 (λ _, Some tt))) as Hinv
    by (apply pool_inv_new; unfold INT_MAX; lia).
  split; [exact Hinv |].
  exact (proj1 (acquire_outcome_by_state _ _ Hinv)).
Defined.

Lemma release_returns_resource_witness :
  pool_inv (T:=unit) [mk_resource 0 tt true]
           (mk_pool 0 [Some 0%nat] 1 (λ _, Some tt) 1 0 false) ∧
  in_use (T:=unit) [mk_resource 0 tt true] (Some 0%nat) = true ∧
  ∃ hp' p',
    release [mk_resource 0 tt true]
            (mk_pool 0 [Some 0%nat] 1 (λ _, Some tt) 1 0 false) (Some 0%nat)
    = (true, hp', p') ∧
    haveResources p' = 0 + 1.
Proof.
  assert (pool_inv (T:=unit) [mk_resource 0 tt true]
            (mk_pool 0 [Some 0%nat] 1 (λ _, Some tt) 1 0 false)) as Hinv
    by exact (pool_inv_one_slot [mk_resource 0 tt true] 0 (λ _, Some tt) 1 0
                (mk_resource 0 tt true) false eq_refl).
  split; [exact Hinv |]. split; [reflexivity |].
  destruct (release_returns_resource _ _ 0%nat 0%nat Hinv eq_refl eq_refl)
    as (hp' & p' & Hr & Hc & _).
  exists hp', p'. split; [exact Hr | exact Hc].
Defined.

Lemma release_then_acquire_round_trip_witness :
  pool_inv (T:=unit) [] (new_pool 0 1 (λ _, Some tt)) ∧
  acquire (T:=unit) [] (new_pool 0 1 (λ _, Some tt))
  = (Returned (Some 0%nat), [mk_resource 0 tt true],
     mk_pool 0 [Some 0%nat] 1 (λ _, Some tt) 1 0 false) ∧
  ∃ hp2 p2,
    release [mk_resource 0 tt true]
            (mk_pool 0 [Some 0%nat] 1 (λ _, Some tt) 1 0 false) (Some 0%nat)
    = (true, hp2, p2) ∧
    acquire hp2 p2
    = (Returned (Some 0%nat), [mk_resource 0 tt true],
       mk_pool 0 [Some 0%nat] 1 (λ _, Some tt) 1 0 false).
Proof.
  assert (pool_inv (T:=unit) [] (new_pool 0 1 (λ _, Some tt))) as Hinv
    by (apply pool_inv_new; unfold INT_MAX; lia).
  assert (acquire (T:=unit) [] (new_pool 0 1 (λ _, Some tt))
          = (Returned (Some 0%nat), [mk_resource 0 tt true],
             mk_pool 0 [Some 0%nat] 1 (λ _, Some tt) 1 0 false)) as E
    by (vm_compute; reflexivity).
  split; [exact Hinv |]. split; [exact E |].
  destruct (release_then_acquire_round_trip _ _ _ _ _ Hinv E)
    as (hp2 & p2 & Hr & _ & _ & _ & Ha).
  exists hp2, p2. split; [exact Hr | exact Ha].
Defined.

Lemma release_wakes_one_waiter_witness :
  in_use (T:=unit) [] None = false ∧
  act (Release None 0)
      (mk_system (T:=unit) [] (new_pool 0 1 (λ _, Some tt)) [Waiting])
  = mk_system [] (new_pool 0 1 (λ _, Some tt)) [Waiting].
Proof.
  split; [reflexivity |].
  exact (proj1 (release_wakes_one_waiter
                  (mk_system (T:=unit) [] (new_pool 0 1 (λ _, Some tt))
                             [Waiting]) None 0%nat) eq_refl).
Defined.

Lemma spurious_wakeup_goes_back_to_wait_witness :
  haveResources (mk_pool (T:=unit) 0 [Some 0%nat] 1 (λ _, Some tt) 1 0 false)
  <= 0 ∧
  acts [Spurious 0; Run 0]
       (mk_system [mk_resource 0 tt true]
          (mk_pool 0 [Some 0%nat] 1 (λ _, Some tt) 1 0 false) [Waiting])
  = mk_system [mk_resource 0 tt true]
      (mk_pool 0 [Some 0%nat] 1 (λ _, Some tt) 1 0 false) [Waiting].
Proof.
  assert (haveResources
            (mk_pool (T:=unit) 0 [Some 0%nat] 1 (λ _, Some tt) 1 0 false) <= 0)
    as Hz by (simpl; lia).
  split; [exact Hz |].
  exact (spurious_wakeup_goes_back_to_wait
           (mk_system [mk_resource 0 tt true]
              (mk_pool 0 [Some 0%nat] 1 (λ _, Some tt) 1 0 false) [Waiting])
           0%nat eq_refl Hz eq_refl).
Defined.

Lemma release_hands_over_to_waiter_witness :
  pool_inv (T:=unit) [mk_resource 0 tt true]
           (mk_pool 0 [Some 0%nat] 1 (λ _, Some tt) 1 0 false) ∧
  acts [Release (Some 0%nat) 1; Run 1]
       (mk_system [mk_resource 0 tt true]
          (mk_pool 0 [Some 0%nat] 1 (λ _, Some tt) 1 0 false)
          [Finished (Some 0%nat); Waiting])
  = mk_system [mk_resource 0 tt true]
      (mk_pool 0 [Some 0%nat] 1 (λ _, Some tt) 1 0 false)
      (<[1%nat:=Finished (Some 0%nat)]> [Finished (Some 0%nat); Waiting]).
Proof.
  assert (pool_inv (T:=unit) [mk_resource 0 tt true]
            (mk_pool 0 [Some 0%nat] 1 (λ _, Some tt) 1 0 false)) as Hinv
    by exact (pool_inv_one_slot [mk_resource 0 tt true] 0 (λ _, Some tt) 1 0
                (mk_resource 0 tt true) false eq_refl).
  split; [exact Hinv |].
  exact (release_hands_over_to_waiter
           (mk_system [mk_resource 0 tt true]
              (mk_pool 0 [Some 0%nat] 1 (λ _, Some tt) 1 0 false)
              [Finished (Some 0%nat); Waiting])
           0%nat 0%nat 1%nat Hinv eq_refl eq_refl eq_refl eq_refl).
Defined.

Lemma pool_members_are_fixed_witness :
  stop (c_pool (do_op OpShutdown (fresh (T:=unit) [] 0 1 (λ _, Some tt))))
  = true ∧
  stop (c_pool (run [OpAcquire; OpRelease (Some 0%nat)]
                    (do_op OpShutdown (fresh (T:=unit) [] 0 1 (λ _, Some tt)))))
  = true.
Proof.
  split; [reflexivity |].
  destruct (pool_members_are_fixed (T:=unit)
              [OpAcquire; OpRelease (Some 0%nat)]
              (do_op OpShutdown (fresh [] 0 1 (λ _, Some tt))))
    as (_ & _ & _ & _ & _ & H & _).
  exact (H eq_refl).
Defined.

Lemma handles_name_their_pool_witness :
  mk_config [mk_resource 5 tt false; mk_resource 5 tt true]
    (mk_pool 5 [Some 0%nat; Some 1%nat] 2 (λ _, Some tt) 2 1 false)
    [Some 1%nat; Some 0%nat]
  = run [OpAcquire; OpAcquire; OpRelease (Some 0%nat)]
        (fresh (T:=unit) [] 5 2 (λ _, Some tt)) ∧
  this (mk_pool (T:=unit) 5 [Some 0%nat; Some 1%nat] 2 (λ _, Some tt) 2 1 false)
  = 5%nat.
Proof.
  assert (mk_config [mk_resource 5 tt false; mk_resource 5 tt true]
            (mk_pool 5 [Some 0%nat; Some 1%nat] 2 (λ _, Some tt) 2 1 false)
            [Some 1%nat; Some 0%nat]
          = run [OpAcquire; OpAcquire; OpRelease (Some 0%nat)]
                (fresh (T:=unit) [] 5 2 (λ _, Some tt))) as E
    by (vm_compute; reflexivity).
  split; [exact E |].
  exact (proj1 (handles_name_their_pool _ _ _ _ _ _ E)).
Defined.

Lemma acquire_until_exhausted_witness :
  0 <= 2 <= INT_MAX ∧
  (∀ n : nat, is_Some ((λ _, Some tt) n)) ∧
  resourcesAvailable
    (c_pool (run (replicate (Z.to_nat (Z.max 2 1)) OpAcquire)
                 (fresh (T:=unit) [] 0 2 (λ _, Some tt)))) = 0.
Proof.
  assert (0 <= 2 <= INT_MAX) as Hr by (unfold INT_MAX; lia).
  assert (∀ n : nat, is_Some ((λ _ : nat, Some tt) n)) as Htot
    by (intros n; exists tt; reflexivity).
  split; [exact Hr |]. split; [exact Htot |].
  exact (proj1 (acquire_until_exhausted (T:=unit) [] 0 2 (λ _, Some tt) _
                  Hr Htot eq_refl)).
Defined.

Lemma shutdown_test_terminates_witness :
  0 <= 3 <= INT_MAX ∧
  (∀ n : nat, is_Some ((λ _, Some tt) n)) ∧
  resourcesAvailable
    (s_pool (acts (calls_in_a_row (S (Z.to_nat (Z.max 3 1))) 0)
                  (mk_system (T:=unit) [] (new_pool 0 3 (λ _, Some tt)) [])))
  = 0.
Proof.
  assert (0 <= 3 <= INT_MAX) as Hr by (unfold INT_MAX; lia).
  assert (∀ n : nat, is_Some ((λ _ : nat, Some tt) n)) as Htot
    by (intros n; exists tt; reflexivity).
  split; [exact Hr |]. split; [exact Htot |].
  exact (proj1 (shutdown_test_terminates (T:=unit) [] 0 3 (λ _, Some tt) _ _
                  Hr Htot eq_refl eq_refl)).
Defined.

Lemma release_ignores_owner_witness :
  pool_inv (T:=unit) [mk_resource 0 tt true; mk_resource 9 tt true]
           (mk_pool 0 [Some 0%nat] 1 (λ _, Some tt) 1 0 false) ∧
  (∀ i, [Some 0%nat] !! i ≠ Some (Some 1%nat)) ∧
  in_use (T:=unit) [mk_resource 0 tt true; mk_resource 9 tt true]
         (Some 1%nat) = true ∧
  ∃ hp' p',
    release [mk_resource 0 tt true; mk_resource 9 tt true]
            (mk_pool 0 [Some 0%nat] 1 (λ _, Some tt) 1 0 false) (Some 1%nat)
    = (true, hp', p') ∧
    haveResources p' = to_int (0 + 1).
Proof.
  assert (pool_inv (T:=unit) [mk_resource 0 tt true; mk_resource 9 tt true]
            (mk_pool 0 [Some 0%nat] 1 (λ _, Some tt) 1 0 false)) as Hinv
    by exact (pool_inv_one_slot
                [mk_resource 0 tt true; mk_resource 9 tt true] 0
                (λ _, Some tt) 1 0 (mk_resource 0 tt true) false eq_refl).
  assert (∀ i, [Some 0%nat] !! i ≠ Some (Some 1%nat)) as Hno
    by (intros [| [| i]]; discriminate).
  split; [exact Hinv |]. split; [exact Hno |]. split; [reflexivity |].
  destruct (release_ignores_owner _ _ 1%nat Hinv Hno eq_refl)
    as (hp' & p' & Hr & _ & _ & _ & Hc & _).
  exists hp', p'. split; [exact Hr | exact Hc].
Defined.

Lemma acquire_without_free_slot_witness :
  0 < haveResources (mk_pool (T:=unit) 0 [Some 0%nat] 1 (λ _, Some tt) 1 1 false)
  <= INT_MAX ∧
  (∀ j s, [Some 0%nat] !! j = Some s →
          slot_free (T:=unit) [mk_resource 0 tt true] s = false) ∧
  acquire [mk_resource 0 tt true]
          (mk_pool 0 [Some 0%nat] 1 (λ _, Some tt) 1 1 false)
  = (Returned None, [mk_resource 0 tt true],
     mk_pool 0 [Some 0%nat] 1 (λ _, Some tt) 1 0 false).
Proof.
  assert (0 < haveResources
                (mk_pool (T:=unit) 0 [Some 0%nat] 1 (λ _, Some tt) 1 1 false)
          <= INT_MAX) as Hr by (unfold INT_MAX; simpl; lia).
  assert (∀ j s, [Some 0%nat] !! j = Some s →
                 slot_free (T:=unit) [mk_resource 0 tt true] s = false) as Hfull.
  { intros [| [| j]] s H; try discriminate. injection H as <-. reflexivity. }
  split; [exact Hr |]. split; [exact Hfull |].
  exact (acquire_without_free_slot [mk_resource 0 tt true]
           (mk_pool 0 [Some 0%nat] 1 (λ _, Some tt) 1 1 false)
           eq_refl Hr Hfull).
Defined.

Lemma counter_bounded_under_interleaving_witness :
  pool_inv (T:=unit) [] (new_pool 0 2 (λ _, Some tt)) ∧
  slot_releases
    [Call; Run 0; Run 0; Release (Some 0%nat) 0; Spurious 0; ShutdownLock;
     ShutdownNotify; Release None 0]
    (mk_system (T:=unit) [] (new_pool 0 2 (λ _, Some tt)) []) ∧
  0 <= resourcesAvailable
         (s_pool (acts [Call; Run 0; Run 0; Release (Some 0%nat) 0; Spurious 0;
                        ShutdownLock; ShutdownNotify; Release None 0]
                       (mk_system (T:=unit) [] (new_pool 0 2 (λ _, Some tt)) [])))
  <= 2.
Proof.
  assert (pool_inv (T:=unit) [] (new_pool 0 2 (λ _, Some tt))) as Hinv
    by (apply pool_inv_new; unfold INT_MAX; lia).
  assert (slot_releases
            [Call; Run 0; Run 0; Release (Some 0%nat) 0; Spurious 0;
             ShutdownLock; ShutdownNotify; Release None 0]
            (mk_system (T:=unit) [] (new_pool 0 2 (λ _, Some tt)) [])) as Hown.
  { vm_compute. repeat split. exists 0%nat. reflexivity. }
  split; [exact Hinv |]. split; [exact Hown |].
  destruct (counter_bounded_under_interleaving _
              (mk_system (T:=unit) [] (new_pool 0 2 (λ _, Some tt)) [])
              Hinv Hown) as (_ & _ & H).
  exact H.
Defined.

End ResourcePool.
